(** * ForceCloseOreUI: the Android hook chain (src/api/memory/android/Hook.cpp)

    A shallow embedding of the hook registry ([hook], [unhook], [unhookAll]),
    of the per-target chain ([HookData], [updateCallList]) and of the
    signature resolver ([resolveIdentifier]), with the properties of the
    design document stated over them.

    Conventions of the embedding.
    - [FuncPtr] and [FuncPtr*] values are addresses, integers in [Z];
      [nullptr] is [0].
    - The caller-owned slots ([HookElement::originalFunc]) live in a [Heap]
      that maps addresses to the address stored there; the heap also keeps the
      list of the stores performed, in program order.  A store through
      [nullptr] is undefined behaviour: the operation has no result ([None]).
      Chain objects are not part of that heap: a slot never aliases a field of
      a [HookData].
    - [int] is [Z]; [++hookId] at [INT_MAX] is undefined behaviour ([None]).
    - [HookPriority] is declared in api/memory/Hook.h, which is not part of
      the sources at hand; it is an integer-valued enumeration, taken as [Z].
    - ShadowHook is an external library reached through three function
      pointers.  It is a record [Engine] of state-passing functions; the
      calls made to it are logged in [calls].  [dlopen]/[dlsym] are taken to
      succeed.
    - [hooksMutex] serialises the three operations; they are modelled as
      atomic steps on a [World]. *)

From stdpp Require Import base option list sorting gmap strings.

Open Scope Z_scope.

(** ** Data model *)

Definition nullptr : Z := 0.
Definition INT_MAX : Z := 2147483647.
Definition RT_SUCCESS : Z := 0.

Inductive shadowhook_mode_t := SHADOWHOOK_MODE_SHARED | SHADOWHOOK_MODE_UNIQUE.

Record HookElement := mkHookElement {
  detour : Z;
  originalFunc : Z;
  priority : Z;
  id : Z
}.

(** [HookElement::operator<]. *)
Definition elem_lt (a b : HookElement) : bool :=
  if negb (priority a =? priority b) then priority a <? priority b
  else id a <? id b.

Record HookData := mkHookData {
  target : Z;
  origin : Z;
  start : Z;
  stub : Z;
  hookId : Z;
  hooks : list HookElement   (* std::set<HookElement>, in iteration order *)
}.

Definition set_origin (v : Z) (d : HookData) : HookData :=
  mkHookData (target d) v (start d) (stub d) (hookId d) (hooks d).
Definition set_start (v : Z) (d : HookData) : HookData :=
  mkHookData (target d) (origin d) v (stub d) (hookId d) (hooks d).
Definition set_stub (v : Z) (d : HookData) : HookData :=
  mkHookData (target d) (origin d) (start d) v (hookId d) (hooks d).
Definition set_hookId (v : Z) (d : HookData) : HookData :=
  mkHookData (target d) (origin d) (start d) (stub d) v (hooks d).
Definition set_hooks (l : list HookElement) (d : HookData) : HookData :=
  mkHookData (target d) (origin d) (start d) (stub d) (hookId d) l.

(** ** The caller-owned slots *)

Record Heap := mkHeap {
  cells : gmap Z Z;
  stores : list (Z * Z)
}.

(** [*p = v]. *)
Definition store (p v : Z) (h : Heap) : option Heap :=
  if p =? nullptr then None
  else Some (mkHeap (<[p := v]> (cells h)) (stores h ++ [(p, v)])).

(** ** std::set<HookElement> *)

(** [std::set::insert]: the element goes before the first greater one; an
    element equivalent to a present one (neither is less) is not inserted. *)
Fixpoint set_insert (x : HookElement) (l : list HookElement) : list HookElement :=
  match l with
  | [] => [x]
  | y :: l' =>
      if elem_lt x y then x :: l
      else if elem_lt y x then y :: set_insert x l'
      else l
  end.

(** The loop of [unhook] up to [hooks.erase(it)]: the set without the first
    element, in iteration order, whose detour is [d]; [None] when the loop
    runs to the end. *)
Fixpoint erase_first (d : Z) (l : list HookElement) : option (list HookElement) :=
  match l with
  | [] => None
  | it :: l' =>
      if detour it =? d then Some l'
      else cons it <$> erase_first d l'
  end.

(** ** HookData::updateCallList *)

(** The [for] loop, with the local [last] and the field [start] threaded. *)
Fixpoint updateCallList_loop (orig : Z) (items : list HookElement)
    (last st : Z) (h : Heap) : option (Z * Z * Heap) :=
  match items with
  | [] => Some (last, st, h)
  | item :: rest =>
      if last =? nullptr then
        h' ← store (originalFunc item) orig h;
        updateCallList_loop orig rest (originalFunc item) (detour item) h'
      else
        h' ← store last (detour item) h;
        updateCallList_loop orig rest (originalFunc item) st h'
  end.

Definition updateCallList (d : HookData) (h : Heap) : option (HookData * Heap) :=
  '(last, st, h1) ← updateCallList_loop (origin d) (hooks d) nullptr (start d) h;
  if last =? nullptr then Some (set_start (origin d) (set_start st d), h1)
  else
    h2 ← store last (origin d) h1;
    Some (set_start st d, h2).

(** [int incrementHookId() { return ++hookId; }] *)
Definition incrementHookId (d : HookData) : option (Z * HookData) :=
  if hookId d <? INT_MAX then Some (hookId d + 1, set_hookId (hookId d + 1) d)
  else None.

(** ** The external engine *)

Inductive EngineCall :=
  | CallInit
  | CallHook (func_addr new_addr : Z)
  | CallUnhook (stub_addr : Z).

(** [shadowhook_hook_func_addr e func_addr new_addr orig s] is given the
    content [orig] of [*orig_addr] before the call and returns the stub, the
    content of [*orig_addr] after the call, and the next engine state. *)
Record Engine := mkEngine {
  estate : Type;
  shadowhook_init : shadowhook_mode_t → bool → estate → Z * estate;
  shadowhook_hook_func_addr : Z → Z → Z → estate → Z * Z * estate;
  shadowhook_unhook : Z → estate → Z * estate
}.

(** ** The registry *)

Section Registry.

Context (E : Engine).

Record World := mkWorld {
  registry : gmap Z HookData;   (* getHooks() *)
  heap : Heap;
  init : bool;                  (* static bool init *)
  engine : estate E;
  calls : list EngineCall
}.

(** The [if (!init) { ... }] block of [hook]. *)
Definition initOnce (w : World) : World :=
  if init w then w
  else
    let '(result, e) := shadowhook_init E SHADOWHOOK_MODE_SHARED false (engine w) in
    mkWorld (registry w) (heap w) (result =? 0) e (calls w ++ [CallInit]).

Definition hook (target detour originalFunc priority : Z) (suspendThreads : bool)
    (w : World) : option (Z * World) :=
  let w := initOnce w in
  match registry w !! target with
  | Some hookData =>
      '(newId, hookData) ← incrementHookId hookData;
      let hookData :=
        set_hooks (set_insert (mkHookElement detour originalFunc priority newId)
                              (hooks hookData)) hookData in
      '(hookData, h) ← updateCallList hookData (heap w);
      let '(_, orig, e) :=
        shadowhook_hook_func_addr E target (start hookData) (origin hookData)
          (engine w) in
      Some (0, mkWorld (<[target := set_origin orig hookData]> (registry w)) h
                 (init w) e (calls w ++ [CallHook target (start hookData)]))
  | None =>
      let hookData := mkHookData target nullptr detour nullptr 0 [] in
      let '(stb, orig, e) :=
        shadowhook_hook_func_addr E target detour (origin hookData) (engine w) in
      let hookData := set_stub stb (set_origin orig hookData) in
      let w := mkWorld (registry w) (heap w) (init w) e
                 (calls w ++ [CallHook target detour]) in
      '(newId, hookData) ← incrementHookId hookData;
      let hookData :=
        set_hooks (set_insert (mkHookElement detour originalFunc priority newId)
                              (hooks hookData)) hookData in
      if stub hookData =? nullptr then Some (-1, w)
      else
        '(hookData, h) ← updateCallList hookData (heap w);
        Some (0, mkWorld (<[target := hookData]> (registry w)) h (init w)
                   (engine w) (calls w))
  end.

Definition unhook (target detour : Z) (suspendThreads : bool) (w : World)
    : option (bool * World) :=
  if target =? nullptr then Some (false, w)
  else
    match registry w !! target with
    | None => Some (false, w)
    | Some hookData =>
        match erase_first detour (hooks hookData) with
        | None => Some (false, w)
        | Some rest =>
            let hookData := set_hooks rest hookData in
            '(hookData, h) ← updateCallList hookData (heap w);
            match hooks hookData with
            | [] =>
                let '(_, e) := shadowhook_unhook E (stub hookData) (engine w) in
                Some (true, mkWorld (delete target (registry w)) h (init w) e
                              (calls w ++ [CallUnhook (stub hookData)]))
            | _ :: _ =>
                let '(_, orig, e) :=
                  shadowhook_hook_func_addr E target (start hookData)
                    (origin hookData) (engine w) in
                Some (true, mkWorld (<[target := set_origin orig hookData]> (registry w))
                              h (init w) e
                              (calls w ++ [CallHook target (start hookData)]))
            end
        end
    end.

(** One iteration of the loop of [unhookAll]. *)
Definition unhookAll_step (acc : estate E * list EngineCall) (kv : Z * HookData)
    : estate E * list EngineCall :=
  let '(_, e) := shadowhook_unhook E (stub kv.2) acc.1 in
  (e, acc.2 ++ [CallUnhook (stub kv.2)]).

(** [unhookAll]; the iteration order of the unordered map is the one of
    [map_to_list]. *)
Definition unhookAll (w : World) : World :=
  let '(e, cs) := foldl unhookAll_step (engine w, calls w) (map_to_list (registry w)) in
  mkWorld ∅ (heap w) (init w) e cs.

(** Operations as data, and runs of them. *)
Inductive Op :=
  | OpHook (target detour originalFunc priority : Z) (suspendThreads : bool)
  | OpUnhook (target detour : Z) (suspendThreads : bool)
  | OpUnhookAll.

Definition exec (o : Op) (w : World) : option World :=
  match o with
  | OpHook t d s p b => snd <$> hook t d s p b w
  | OpUnhook t d b => snd <$> unhook t d b w
  | OpUnhookAll => Some (unhookAll w)
  end.

Fixpoint run (ops : list Op) (w : World) : option World :=
  match ops with
  | [] => Some w
  | o :: ops' => w' ← exec o w; run ops' w'
  end.

(** The process at start: no chain, the engine not initialised. *)
Definition boot (h : Heap) (e : estate E) : World := mkWorld ∅ h false e [].

End Registry.

Arguments registry {E} _.
Arguments heap {E} _.
Arguments init {E} _.
Arguments engine {E} _.
Arguments calls {E} _.
Arguments mkWorld {E} _ _ _ _ _.

(** ** The signature resolver *)

Module Resolver.

Definition UINTPTR_MOD : Z := 2 ^ 64.
Definition libminecraftpe : string := "libminecraftpe.so".

(** [strstr(line, libName) != NULL]. *)
Fixpoint strstr (line libName : string) : bool :=
  if String.prefix libName line then true
  else match line with
       | EmptyString => false
       | String _ line' => strstr line' libName
       end.

Section WithCollaborators.

(** The C library's [sscanf] at the two formats of the source, and
    [resolveSignature] of api/memory/android/Memory.h, are not part of the
    sources at hand:
    - [sscanf_base line = Some temp] when
      [sscanf(line, "%lx-%*lx", &temp) == 1];
    - [sscanf_range line = Some (start, end)] when
      [sscanf(line, "%lx-%lx", &start, &end) == 2].
    /proc/self/maps as read at one moment is [None] when [fopen] fails and
    otherwise the list of the pieces [fgets(line, 512, fp)] delivers. *)
Context (sscanf_base : string → option Z)
        (sscanf_range : string → option (Z * Z))
        (resolveSignature : Z → Z → string → Z).

Definition Maps := option (list string).

Fixpoint getLibBase_loop (lines : list string) (libName : string) : Z :=
  match lines with
  | [] => 0
  | line :: lines' =>
      if strstr line libName then
        match sscanf_base line with
        | Some temp => temp `mod` UINTPTR_MOD
        | None => getLibBase_loop lines' libName
        end
      else getLibBase_loop lines' libName
  end.

Definition getLibBase (maps : Maps) (libName : string) : Z :=
  match maps with
  | None => 0
  | Some lines => getLibBase_loop lines libName
  end.

Fixpoint getLibSize_loop (lines : list string) (libName : string) (totalSize : Z) : Z :=
  match lines with
  | [] => totalSize
  | line :: lines' =>
      if strstr line libName then
        match sscanf_range line with
        | Some (start, end_) =>
            getLibSize_loop lines' libName
              ((totalSize + (end_ - start) `mod` UINTPTR_MOD) `mod` UINTPTR_MOD)
        | None => getLibSize_loop lines' libName totalSize
        end
      else getLibSize_loop lines' libName totalSize
  end.

Definition getLibSize (maps : Maps) (libName : string) : Z :=
  match maps with
  | None => 0
  | Some lines => getLibSize_loop lines libName 0
  end.

(** The three function-local statics of [resolveIdentifier], and the list of
    the module names the memory map was scanned for, one per call of
    [getLibBase] or [getLibSize]. *)
Record Statics := mkStatics {
  initialized : bool;
  base : Z;
  size : Z;
  scanned : list string
}.

Definition statics0 : Statics := mkStatics false 0 0 [].

Definition resolveIdentifier (maps : Maps) (identifier : string) (s : Statics)
    : Z * Statics :=
  let s :=
    if initialized s then s
    else mkStatics true (getLibBase maps libminecraftpe) (getLibSize maps libminecraftpe)
           (scanned s ++ [libminecraftpe; libminecraftpe]) in
  if (base s =? 0) || (size s =? 0) then (nullptr, s)
  else
    let result := resolveSignature (base s) (size s) identifier in
    if result =? 0 then (nullptr, s) else (result, s).

(** [resolveIdentifier(std::initializer_list<const char *>)]. *)
Fixpoint resolveIdentifiers (maps : Maps) (identifiers : list string) (s : Statics)
    : Z * Statics :=
  match identifiers with
  | [] => (nullptr, s)
  | identifier :: rest =>
      let '(result, s') := resolveIdentifier maps identifier s in
      if result =? nullptr then resolveIdentifiers maps rest s'
      else (result, s')
  end.

(** Successive calls of [resolveIdentifier], each with the memory map as it
    is at the time of the call. *)
Fixpoint resolve_calls (reqs : list (Maps * string)) (s : Statics)
    : list Z * Statics :=
  match reqs with
  | [] => ([], s)
  | (maps, identifier) :: reqs' =>
      let '(r, s') := resolveIdentifier maps identifier s in
      let '(rs, s'') := resolve_calls reqs' s' in
      (r :: rs, s'')
  end.

End WithCollaborators.

End Resolver.

(** ** Vocabulary of the properties *)

(** The address an entry forwards to: the detour of the entry after it, or
    the origin for the last one. *)
Definition next_of (O : Z) (rest : list HookElement) : Z :=
  match rest with
  | [] => O
  | e :: _ => detour e
  end.

(** The final content of every slot of a chain [l] recomputed with origin
    [O], in chain order. *)
Fixpoint wiring (O : Z) (l : list HookElement) : list (Z * Z) :=
  match l with
  | [] => []
  | e :: rest => (originalFunc e, next_of O rest) :: wiring O rest
  end.

(** All the stores of one [updateCallList] over [l]: the slot of the head is
    first given the origin, then every slot its final content. *)
Definition full_writes (O : Z) (l : list HookElement) : list (Z * Z) :=
  match l with
  | [] => []
  | e :: _ => (originalFunc e, O) :: wiring O l
  end.

Definition put (c : gmap Z Z) (pv : Z * Z) : gmap Z Z := <[pv.1 := pv.2]> c.

Definition write_all (ws : list (Z * Z)) (h : Heap) : Heap :=
  mkHeap (foldl put (cells h) ws) (stores h ++ ws).

(** The stores of the loop once [last] is set, and the value of [last] at its
    end. *)
Fixpoint links (last : Z) (items : list HookElement) : list (Z * Z) :=
  match items with
  | [] => []
  | e :: rest => (last, detour e) :: links (originalFunc e) rest
  end.

Fixpoint last_slot (last : Z) (items : list HookElement) : Z :=
  match items with
  | [] => last
  | e :: rest => last_slot (originalFunc e) rest
  end.

Definition slots_valid (l : list HookElement) : Prop :=
  Forall (λ e, originalFunc e ≠ nullptr) l.

Definition slots_distinct (l : list HookElement) : Prop :=
  NoDup (originalFunc <$> l).

(** The slots of [l], read in [c], forward along [l] and end in [O]. *)
Fixpoint wired (c : gmap Z Z) (O : Z) (l : list HookElement) : Prop :=
  match l with
  | [] => True
  | e :: rest => c !! originalFunc e = Some (next_of O rest) ∧ wired c O rest
  end.

Definition elem_ltP (a b : HookElement) : Prop := elem_lt a b = true.

(** Ascending in (priority, id), and every id was handed out by the counter
    of the chain. *)
Definition chain_ordered (d : HookData) : Prop :=
  StronglySorted elem_ltP (hooks d) ∧ Forall (λ e, id e ≤ hookId d) (hooks d).

(** Every chain of the registry is ordered and holds at least one entry. *)
Definition registry_inv {E} (w : World E) : Prop :=
  ∀ t d, registry w !! t = Some d → chain_ordered d ∧ hooks d ≠ [].

Definition op_target (o : Op) : option Z :=
  match o with
  | OpHook t _ _ _ _ => Some t
  | OpUnhook t _ _ => Some t
  | OpUnhookAll => None
  end.

(** The physically installed entry point of a target, if it has a chain. *)
Definition active {E} (t : Z) (w : World E) : option Z :=
  start <$> registry w !! t.

Definition is_install (c : EngineCall) : bool :=
  match c with
  | CallHook _ _ => true
  | _ => false
  end.

(** The number of calls of the engine's install primitive so far. *)
Definition installs_made {E} (w : World E) : nat :=
  length (filter (λ c, is_install c = true) (calls w)).

(** The three results of one call of the engine's install primitive. *)
Definition install_stub (E : Engine) (t n o : Z) (s : estate E) : Z :=
  (shadowhook_hook_func_addr E t n o s).1.1.
Definition install_orig (E : Engine) (t n o : Z) (s : estate E) : Z :=
  (shadowhook_hook_func_addr E t n o s).1.2.
Definition install_next (E : Engine) (t n o : Z) (s : estate E) : estate E :=
  (shadowhook_hook_func_addr E t n o s).2.

(** An engine that, for target [t], always installs and always reports the
    entry point [O]. *)
Definition origin_stable (E : Engine) (t O : Z) : Prop :=
  ∀ n o s, install_stub E t n o s ≠ nullptr ∧ install_orig E t n o s = O.

(** The operation [o] took [w] to [w'] and reported success: [hook]
    returned 0, [unhook] returned [true]. *)
Definition succeeded (E : Engine) (o : Op) (w w' : World E) : Prop :=
  match o with
  | OpHook t d s p b => hook E t d s p b w = Some (0, w')
  | OpUnhook t d b => unhook E t d b w = Some (true, w')
  | OpUnhookAll => False
  end.

(** The addresses met when the chain is entered at [a] and every entry
    forwards to the content of its slot. *)
Fixpoint walk (c : gmap Z Z) (a : Z) (l : list HookElement) : list Z :=
  match l with
  | [] => [a]
  | e :: rest => a :: walk c (default nullptr (c !! originalFunc e)) rest
  end.

(** The wiring the design document asks for, read against the chain's own
    origin field. *)
Definition wired_to_origin {E} (t : Z) (w : World E) : Prop :=
  ∃ d, registry w !! t = Some d ∧
       wired (cells (heap w)) (origin d) (hooks d) ∧
       start d = next_of (origin d) (hooks d).

(** The engine's install primitive was called between [w] and [w'] exactly
    when the installed entry point of [t] differs. *)
Definition reinstall_iff_changed {E} (t : Z) (w w' : World E) : Prop :=
  installs_made w' ≠ installs_made w ↔ active t w' ≠ active t w.

(** *** Install requests, for statements about whole sequences *)

Record Request := mkRequest {
  req_detour : Z;
  req_slot : Z;
  req_priority : Z
}.

Definition strip (e : HookElement) : Request :=
  mkRequest (detour e) (originalFunc e) (priority e).

Definition installs (t : Z) (reqs : list Request) : list Op :=
  (λ r, OpHook t (req_detour r) (req_slot r) (req_priority r) true) <$> reqs.

Definition removals (t : Z) (ds : list Z) : list Op :=
  (λ d, OpUnhook t d true) <$> ds.

(** A request takes its place behind every request of lower or equal
    priority registered before it. *)
Fixpoint rins (r : Request) (L : list Request) : list Request :=
  match L with
  | [] => [r]
  | y :: L' =>
      if req_priority r <? req_priority y then r :: L else y :: rins r L'
  end.

Definition by_priority (a b : Request) : Prop := req_priority a ≤ req_priority b.

Definition rsort_from (L : list Request) (reqs : list Request) : list Request :=
  foldl (λ acc r, rins r acc) L reqs.

Definition rsort (reqs : list Request) : list Request := rsort_from [] reqs.

Fixpoint rerase (d : Z) (L : list Request) : option (list Request) :=
  match L with
  | [] => None
  | y :: L' =>
      if req_detour y =? d then Some L' else cons y <$> rerase d L'
  end.

Fixpoint rerase_all (ds : list Z) (L : list Request) : option (list Request) :=
  match ds with
  | [] => Some L
  | d :: ds' => L' ← rerase d L; rerase_all ds' L'
  end.

(** The lowest priority among the requests with detour [d]. *)
Fixpoint lowest_priority (d : Z) (reqs : list Request) : option Z :=
  match reqs with
  | [] => None
  | r :: rest =>
      if req_detour r =? d then
        Some (match lowest_priority d rest with
              | Some p => Z.min (req_priority r) p
              | None => req_priority r
              end)
      else lowest_priority d rest
  end.

Fixpoint drop_first (d p : Z) (reqs : list Request) : list Request :=
  match reqs with
  | [] => []
  | r :: rest =>
      if (req_detour r =? d) && (req_priority r =? p) then rest
      else r :: drop_first d p rest
  end.

(** The sequence of requests without the one a removal by detour [d] undoes:
    the earliest registered among those of lowest priority with that
    detour. *)
Definition omit (d : Z) (reqs : list Request) : option (list Request) :=
  p ← lowest_priority d reqs; Some (drop_first d p reqs).

Fixpoint omit_all (ds : list Z) (reqs : list Request) : option (list Request) :=
  match ds with
  | [] => Some reqs
  | d :: ds' => reqs' ← omit d reqs; omit_all ds' reqs'
  end.

(** The chain of target [t] in [w] holds the requests [L] in this order, was
    last recomputed with origin [O], which is still its origin, and its
    counter is [n]. *)
Definition chain_at {E} (w : World E) (t O : Z) (L : list Request) (n : Z) : Prop :=
  ∃ d c0,
    registry w !! t = Some d ∧ strip <$> hooks d = L ∧ origin d = O ∧
    start d = next_of O (hooks d) ∧ hookId d = n ∧
    Forall (λ e, id e ≤ hookId d) (hooks d) ∧
    cells (heap w) = foldl put c0 (full_writes O (hooks d)).

(** *** Engines used in the examples *)

(** Hands out a new handle at every install and always reports the same
    pre-hook entry point, eight bytes behind the target. *)
Definition steady_engine : Engine :=
  mkEngine nat
    (λ _ _ s, (0, s))
    (λ t n o s, (7000 + Z.of_nat s, t + 8, S s))
    (λ _ s, (0, s)).

(** Reports, at every install, the entry point that was running before it:
    the previously installed detour once there is one. *)
Definition chaining_engine : Engine :=
  mkEngine (gmap Z Z)
    (λ _ _ s, (0, s))
    (λ t n o s, (7000, default (t + 8) (s !! t), <[t := n]> s))
    (λ _ s, (0, s)).

(** Refuses every install, leaving [*orig_addr] alone, and every uninstall. *)
Definition refusing_engine : Engine :=
  mkEngine unit
    (λ _ _ s, (0, s))
    (λ t n o s, (nullptr, o, s))
    (λ _ s, (-1, s)).

(** Accepts the first install, refuses every later one and every
    uninstall. *)
Definition grudging_engine : Engine :=
  mkEngine nat
    (λ _ _ s, (0, s))
    (λ t n o s, match s with
                | O => (7000, t + 8, S s)
                | S _ => (nullptr, o, s)
                end)
    (λ _ s, (-1, s)).

Definition heap0 : Heap := mkHeap ∅ [].

(** Sample addresses. *)
Definition T1 : Z := 4096.
Definition D1 : Z := 8192.
Definition D2 : Z := 8200.
Definition D3 : Z := 8208.
Definition S1 : Z := 12288.
Definition S2 : Z := 12296.
Definition S3 : Z := 12304.

(** The state after the first install of a process run on [steady_engine]. *)
Definition sample_world : World steady_engine :=
  mkWorld (E := steady_engine) {[T1 := mkHookData T1 (T1 + 8) D1 7000 1 [mkHookElement D1 S1 200 1]]}
    (mkHeap {[S1 := T1 + 8]} [(S1, T1 + 8); (S1, T1 + 8)]) true 1%nat
    [CallInit; CallHook T1 D1].

(** The same detour installed twice on [T1], with two slots and two
    priorities. *)
Definition twice_ops : list Op :=
  [OpHook T1 D1 S1 200 true; OpHook T1 D1 S2 100 true].

Definition twice_world : World steady_engine :=
  default (boot steady_engine heap0 0%nat)
    (run steady_engine twice_ops (boot steady_engine heap0 0%nat)).

(** The state after one install on [T1], on the other sample engines. *)
Definition first_ops : list Op := [OpHook T1 D1 S1 200 true].

Definition grudging_world : World grudging_engine :=
  default (boot grudging_engine heap0 0%nat)
    (run grudging_engine first_ops (boot grudging_engine heap0 0%nat)).

Definition chaining_world : World chaining_engine :=
  default (boot chaining_engine heap0 ∅)
    (run chaining_engine first_ops (boot chaining_engine heap0 ∅)).

(** Two installs on [T1]: the second behind the first; the second with the
    slot of the first; the second with a null slot pointer. *)
Definition behind_ops : list Op :=
  [OpHook T1 D1 S1 200 true; OpHook T1 D2 S2 300 true].
Definition shared_slot_ops : list Op :=
  [OpHook T1 D1 S1 200 true; OpHook T1 D2 S1 300 true].
Definition null_slot_ops : list Op :=
  [OpHook T1 D1 S1 200 true; OpHook T1 D2 nullptr 300 true].

(** Stand-ins for the collaborators of the resolver: [sscanf] restricted to
    plain hexadecimal digits (no blanks, sign or 0x prefix), and a matcher
    that finds every identifier 16 bytes into the module. *)
Definition hex_digit (c : Ascii.ascii) : option Z :=
  let n := Z.of_nat (Ascii.nat_of_ascii c) in
  if (48 <=? n) && (n <=? 57) then Some (n - 48)
  else if (97 <=? n) && (n <=? 102) then Some (n - 87)
  else if (65 <=? n) && (n <=? 70) then Some (n - 55)
  else None.

Fixpoint hex_prefix (s : string) (acc : option Z) : option Z * string :=
  match s with
  | EmptyString => (acc, s)
  | String c s' =>
      match hex_digit c with
      | Some v => hex_prefix s' (Some (16 * default 0 acc + v))
      | None => (acc, s)
      end
  end.

Definition sample_sscanf_base (line : string) : option Z :=
  (hex_prefix line None).1.

Definition is_dash (c : Ascii.ascii) : bool :=
  (Ascii.nat_of_ascii c =? 45)%nat.

Definition sample_sscanf_range (line : string) : option (Z * Z) :=
  match hex_prefix line None with
  | (Some a, String c rest) =>
      if is_dash c then
        match hex_prefix rest None with
        | (Some b, _) => Some (a, b)
        | _ => None
        end
      else None
  | _ => None
  end.

Definition sample_resolveSignature (base size : Z) (pattern : string) : Z :=
  base + 16.

Definition maps_without : Resolver.Maps :=
  Some ["12c00000-12c40000 rw-p 00000000 00:00 0 [anon:dalvik-main space]"].

Definition maps_with : Resolver.Maps :=
  Some ["12c00000-12c40000 rw-p 00000000 00:00 0 [anon:dalvik-main space]";
        "7a000000-7a800000 r-xp 00000000 fd:00 77 /data/app/lib/arm64/libminecraftpe.so";
        "7a800000-7a900000 rw-p 00800000 fd:00 77 /data/app/lib/arm64/libminecraftpe.so"].

(** Sample install requests. *)
Definition R1 : Request := mkRequest D1 S1 200.
Definition R2 : Request := mkRequest D2 S2 100.
Definition R3 : Request := mkRequest D3 S3 200.
Definition R1_again : Request := mkRequest D1 S2 300.

(** A chain of two entries, as left by two installs. *)
Definition sample_chain : HookData :=
  mkHookData T1 (T1 + 8) D2 7000 2
    [mkHookElement D2 S2 100 2; mkHookElement D1 S1 200 1].

(** *** Vocabulary of the further properties *)

Definition is_init (c : EngineCall) : bool :=
  match c with
  | CallInit => true
  | _ => false
  end.

(** The slots of the chain an operation leaves for its target. *)
Definition slots_after {E} (o : Op) (w' : World E) : list Z :=
  match op_target o with
  | Some t =>
      match registry w' !! t with
      | Some d => originalFunc <$> hooks d
      | None => []
      end
  | None => []
  end.

(** What a chain keeps besides its entries: its key as target, a stub, and
    ids that are pairwise distinct and were handed out by its counter. *)
Definition chain_booked (t : Z) (d : HookData) : Prop :=
  target d = t ∧ stub d ≠ nullptr ∧
  Forall (λ e, 1 ≤ id e ≤ hookId d) (hooks d) ∧ NoDup (id <$> hooks d).

(** The statics of [resolveIdentifier] after its [if (!initialized)]
    block. *)
Definition ready (sscanf_base : string → option Z)
    (sscanf_range : string → option (Z * Z))
    (maps : Resolver.Maps) (s : Resolver.Statics) : Resolver.Statics :=
  if Resolver.initialized s then s
  else Resolver.mkStatics true
         (Resolver.getLibBase sscanf_base maps Resolver.libminecraftpe)
         (Resolver.getLibSize sscanf_range maps Resolver.libminecraftpe)
         (Resolver.scanned s ++ [Resolver.libminecraftpe; Resolver.libminecraftpe]).

(** The answer for an identifier from module bounds [B], [S]. *)
Definition cached_answer (resolveSignature : Z → Z → string → Z)
    (B S : Z) (identifier : string) : Z :=
  if (B =? 0) || (S =? 0) then nullptr else resolveSignature B S identifier.

(** The first address of a list that is not null. *)
Fixpoint first_nonnull (l : list Z) : Z :=
  match l with
  | [] => nullptr
  | a :: l' => if a =? nullptr then first_nonnull l' else a
  end.

(** The length one line of the memory map adds to the size of [libName]. *)
Definition segment_length (sscanf_range : string → option (Z * Z))
    (libName line : string) : Z :=
  if Resolver.strstr line libName then
    match sscanf_range line with
    | Some (start, end_) => (end_ - start) `mod` Resolver.UINTPTR_MOD
    | None => 0
    end
  else 0.

Fixpoint segments_total (sscanf_range : string → option (Z * Z))
    (libName : string) (lines : list string) : Z :=
  match lines with
  | [] => 0
  | line :: lines' =>
      segment_length sscanf_range libName line
      + segments_total sscanf_range libName lines'
  end.

(** A line [getLibBase] passes over. *)
Definition no_base (sscanf_base : string → option Z) (libName line : string) : Prop :=
  Resolver.strstr line libName = false ∨ sscanf_base line = None.

(** Three chains, for [unhookAll]. *)
Definition T2 : Z := 4352.

(** A chain whose second entry has a null slot pointer. *)
Definition cut_chain : HookData :=
  mkHookData T1 (T1 + 8) D1 7000 3
    [mkHookElement D1 S1 100 1; mkHookElement D2 nullptr 200 2;
     mkHookElement D3 S3 300 3].

(** * Properties *)

(** ** Stores and recomputation *)

Lemma store_valid p v h :
  p ≠ nullptr → store p v h = Some (write_all [(p, v)] h).
Proof.
  intros Hp. unfold store.
  destruct (Z.eqb_spec p nullptr) as [->|_]; [done|reflexivity].
Qed.

Lemma store_null v h : store nullptr v h = None.
Proof. reflexivity. Qed.

Lemma write_all_app ws1 ws2 h :
  write_all ws2 (write_all ws1 h) = write_all (ws1 ++ ws2) h.
Proof.
  unfold write_all; simpl. by rewrite foldl_app, (assoc_L (++)).
Qed.

Lemma write_all_nil h : write_all [] h = h.
Proof. destruct h. unfold write_all; simpl. by rewrite (right_id_L [] (++)). Qed.

Lemma updateCallList_loop_valid O items last st h :
  last ≠ nullptr → slots_valid items →
  updateCallList_loop O items last st h
  = Some (last_slot last items, st, write_all (links last items) h).
Proof.
  revert last h. induction items as [|e rest IH]; intros last h Hlast Hv; simpl.
  - by rewrite write_all_nil.
  - apply Forall_cons in Hv as [He Hrest].
    destruct (Z.eqb_spec last nullptr) as [->|_]; [done|].
    rewrite store_valid by done. simpl.
    rewrite IH by done. by rewrite write_all_app.
Qed.

Lemma last_slot_valid last items :
  last ≠ nullptr → slots_valid items → last_slot last items ≠ nullptr.
Proof.
  revert last. induction items as [|e rest IH]; intros last Hl Hv; simpl; [done|].
  apply Forall_cons in Hv as [He Hrest]. by apply IH.
Qed.

Lemma links_wiring O e rest :
  links (originalFunc e) rest ++ [(last_slot (originalFunc e) rest, O)]
  = wiring O (e :: rest).
Proof.
  revert e. induction rest as [|e' rest IH]; intros e; [done|].
  simpl. f_equal. apply IH.
Qed.

(** What one recomputation does when no slot pointer is null. *)
Lemma updateCallList_valid d h :
  slots_valid (hooks d) →
  updateCallList d h
  = Some (set_start (next_of (origin d) (hooks d)) d,
          write_all (full_writes (origin d) (hooks d)) h).
Proof.
  intros Hv. unfold updateCallList.
  destruct (hooks d) as [|e rest] eqn:Hh; simpl.
  - by rewrite write_all_nil.
  - apply Forall_cons in Hv as [He Hrest].
    rewrite store_valid by done. simpl.
    rewrite updateCallList_loop_valid by done. simpl.
    pose proof (last_slot_valid _ _ He Hrest) as Hl.
    destruct (Z.eqb_spec (last_slot (originalFunc e) rest) nullptr) as [Heq|_]; [done|].
    rewrite store_valid by done. simpl.
    rewrite !write_all_app. by rewrite links_wiring.
Qed.

Lemma updateCallList_empty d h :
  hooks d = [] → updateCallList d h = Some (set_start (origin d) d, h).
Proof. intros Hh. unfold updateCallList. by rewrite Hh. Qed.

(** The fields a recomputation leaves alone. *)
Lemma updateCallList_frame d h d' h' :
  updateCallList d h = Some (d', h') →
  ∃ st, d' = set_start st d.
Proof.
  unfold updateCallList. intros H.
  destruct (updateCallList_loop _ _ _ _ _) as [[[last st] h1]|]; [|done].
  simpl in H. destruct (last =? nullptr).
  - injection H as <- <-. by eexists.
  - destruct (store _ _ _); [|done]. injection H as <- <-. by eexists.
Qed.

Lemma foldl_put_last c ws p v :
  NoDup ws.*1 → (p, v) ∈ ws → foldl put c ws !! p = Some v.
Proof.
  revert c. induction ws as [|[q u] ws IH] using rev_ind; intros c Hnd Hin.
  - by apply elem_of_nil in Hin.
  - rewrite foldl_app. simpl. unfold put at 1; simpl.
    rewrite fmap_app in Hnd. apply NoDup_app in Hnd as (Hnd1 & Hnd2 & _).
    apply elem_of_app in Hin as [Hin|Hin].
    + rewrite lookup_insert_ne; [by apply IH|].
      intros <-. apply (Hnd2 q); [|simpl; by left].
      apply list_elem_of_fmap. by exists (q, v).
    + apply list_elem_of_singleton in Hin. injection Hin as -> ->.
      by rewrite lookup_insert_eq.
Qed.

Lemma foldl_put_agree c1 c2 ws p :
  p ∈ ws.*1 → foldl put c1 ws !! p = foldl put c2 ws !! p.
Proof.
  revert c1 c2. induction ws as [|[q u] ws IH] using rev_ind; intros c1 c2 Hin.
  - by apply elem_of_nil in Hin.
  - rewrite !foldl_app. simpl. unfold put at 1 3; simpl.
    destruct (decide (q = p)) as [->|Hne].
    + by rewrite !lookup_insert_eq.
    + rewrite !lookup_insert_ne by done. apply IH.
      rewrite fmap_app in Hin. apply elem_of_app in Hin as [Hin|Hin]; [done|].
      simpl in Hin. apply list_elem_of_singleton in Hin. congruence.
Qed.

Lemma wiring_slots O l : (wiring O l).*1 = originalFunc <$> l.
Proof. induction l as [|e rest IH]; [done|]. simpl. f_equal. apply IH. Qed.

Lemma wired_of_wiring c O l :
  (∀ p v, (p, v) ∈ wiring O l → c !! p = Some v) → wired c O l.
Proof.
  induction l as [|e rest IH]; intros H; simpl; [done|]. split.
  - apply H. simpl. by left.
  - apply IH. intros p v Hin. apply H. simpl. by right.
Qed.

(** With pairwise distinct slots, the heap after a recomputation forwards
    along the chain. *)
Lemma wired_after_writes c O l :
  slots_distinct l → wired (foldl put c (full_writes O l)) O l.
Proof.
  intros Hnd. apply wired_of_wiring. intros p v Hin.
  destruct l as [|e rest]; [by apply elem_of_nil in Hin|].
  unfold full_writes. cbn [foldl].
  apply foldl_put_last; [|done]. by rewrite wiring_slots.
Qed.

(** ** The ordered set *)

Lemma elem_lt_spec a b :
  elem_lt a b = true ↔
  priority a < priority b ∨ (priority a = priority b ∧ id a < id b).
Proof.
  unfold elem_lt.
  destruct (Z.eqb_spec (priority a) (priority b)); simpl;
    rewrite Z.ltb_lt; lia.
Qed.

Lemma elem_lt_trans a b c : elem_ltP a b → elem_ltP b c → elem_ltP a c.
Proof. unfold elem_ltP. rewrite !elem_lt_spec. lia. Qed.

Lemma elem_lt_irrefl a : elem_lt a a = false.
Proof.
  destruct (elem_lt a a) eqn:H; [|done]. apply elem_lt_spec in H. lia.
Qed.

Lemma set_insert_elem x z l : z ∈ set_insert x l → z = x ∨ z ∈ l.
Proof.
  induction l as [|y l IH]; simpl.
  - intros H. apply list_elem_of_singleton in H. by left.
  - destruct (elem_lt x y).
    + intros H. apply elem_of_cons in H as [->|H]; [by left|by right].
    + destruct (elem_lt y x); [|by right].
      intros H. apply elem_of_cons in H as [->|H].
      * right. by left.
      * destruct (IH H) as [->|Hin]; [by left|]. right. by right.
Qed.

Lemma set_insert_Forall (P : HookElement → Prop) x l :
  P x → Forall P l → Forall P (set_insert x l).
Proof.
  intros Hx Hl. apply Forall_forall. intros z Hz.
  destruct (set_insert_elem _ _ _ Hz) as [->|Hin]; [done|].
  by apply (proj1 (Forall_forall P l) Hl).
Qed.

Lemma set_insert_nonempty x l : set_insert x l ≠ [].
Proof.
  destruct l as [|y l]; simpl; [done|].
  destruct (elem_lt x y); [done|]. by destruct (elem_lt y x).
Qed.

Lemma set_insert_sorted x l :
  StronglySorted elem_ltP l → StronglySorted elem_ltP (set_insert x l).
Proof.
  induction 1 as [|y l Hs IH Hy]; simpl.
  - repeat constructor.
  - destruct (elem_lt x y) eqn:Hxy.
    + constructor; [by constructor|]. constructor; [done|].
      eapply Forall_impl; [exact Hy|]. intros z Hz.
      by apply (elem_lt_trans x y z).
    + destruct (elem_lt y x) eqn:Hyx; [|by constructor].
      constructor; [done|]. by apply set_insert_Forall.
Qed.

Lemma erase_first_sublist d l l' : erase_first d l = Some l' → sublist l' l.
Proof.
  revert l'. induction l as [|y l IH]; intros l'; simpl; [done|].
  destruct (detour y =? d).
  - intros [= <-]. by apply sublist_cons.
  - destruct (erase_first d l) as [r|]; [|done].
    intros [= <-]. apply sublist_skip. by apply IH.
Qed.

Lemma sublist_Forall (P : HookElement → Prop) l' l :
  sublist l' l → Forall P l → Forall P l'.
Proof.
  intros Hsub Hl. apply Forall_forall. intros x Hx.
  apply (proj1 (Forall_forall P l) Hl). by eapply elem_of_sublist.
Qed.

Lemma sublist_sorted (l' l : list HookElement) :
  sublist l' l → StronglySorted elem_ltP l → StronglySorted elem_ltP l'.
Proof.
  induction 1 as [|x l1 l2 Hsub IH|x l1 l2 Hsub IH]; intros Hs.
  - constructor.
  - apply StronglySorted_inv in Hs as [Hs Hx]. constructor; [by apply IH|].
    by eapply sublist_Forall.
  - apply StronglySorted_inv in Hs as [Hs _]. by apply IH.
Qed.

(** The element [unhook] erases is the first of its detour in chain order. *)
Lemma erase_first_split d l l' :
  erase_first d l = Some l' →
  ∃ l1 e l2, l = l1 ++ e :: l2 ∧ l' = l1 ++ l2 ∧ detour e = d ∧
             Forall (λ x, detour x ≠ d) l1.
Proof.
  revert l'. induction l as [|y l IH]; intros l'; simpl; [done|].
  destruct (Z.eqb_spec (detour y) d) as [Hy|Hy].
  - intros [= <-]. by exists [], y, l.
  - destruct (erase_first d l) as [r|]; [|done].
    intros [= <-]. destruct (IH r eq_refl) as (l1 & e & l2 & -> & -> & He & Hl1).
    exists (y :: l1), e, l2. repeat split; [done|]. by constructor.
Qed.

Lemma erase_first_found d l1 e l2 :
  detour e = d → Forall (λ x, detour x ≠ d) l1 →
  erase_first d (l1 ++ e :: l2) = Some (l1 ++ l2).
Proof.
  intros He. induction 1 as [|y l1 Hy _ IH]; simpl.
  - by destruct (Z.eqb_spec (detour e) d).
  - destruct (Z.eqb_spec (detour y) d); [done|]. by rewrite IH.
Qed.

Lemma erase_first_none d l :
  erase_first d l = None ↔ Forall (λ x, detour x ≠ d) l.
Proof.
  induction l as [|y l IH]; simpl.
  - split; [constructor|done].
  - destruct (Z.eqb_spec (detour y) d) as [Hy|Hy].
    + split; [done|]. intros H. by apply Forall_cons in H as [? _].
    + destruct (erase_first d l); simpl.
      * split; [done|]. intros H. apply Forall_cons in H as [_ H].
        by apply IH in H.
      * split; [|done]. intros _. constructor; [done|]. by apply IH.
Qed.

(** ** The operations, equationally *)

Section Equations.

Context (E : Engine).

Lemma registry_initOnce (w : World E) : registry (initOnce E w) = registry w.
Proof.
  unfold initOnce. destruct (init w); [done|].
  by destruct (shadowhook_init _ _ _ _).
Qed.

Lemma heap_initOnce (w : World E) : heap (initOnce E w) = heap w.
Proof.
  unfold initOnce. destruct (init w); [done|].
  by destruct (shadowhook_init _ _ _ _).
Qed.

Lemma hook_existing t d s p b (w : World E) hd :
  registry w !! t = Some hd →
  hook E t d s p b w =
    if hookId hd <? INT_MAX then
      '(hd1, h1) ← updateCallList
          (set_hooks (set_insert (mkHookElement d s p (hookId hd + 1)) (hooks hd))
             (set_hookId (hookId hd + 1) hd)) (heap w);
      let w0 := initOnce E w in
      Some (0, mkWorld
                 (<[t := set_origin
                           (install_orig E t (start hd1) (origin hd1) (engine w0))
                           hd1]> (registry w))
                 h1 (init w0)
                 (install_next E t (start hd1) (origin hd1) (engine w0))
                 (calls w0 ++ [CallHook t (start hd1)]))
    else None.
Proof.
  intros Hreg. unfold hook. cbv zeta.
  rewrite registry_initOnce, heap_initOnce, Hreg.
  unfold incrementHookId. destruct (hookId hd <? INT_MAX); [|done]. simpl.
  destruct (updateCallList _ _) as [[hd1 h1]|]; [|done]. simpl.
  unfold install_orig, install_next.
  by destruct (shadowhook_hook_func_addr _ _ _ _ _) as [[? ?] ?].
Qed.

Lemma hook_fresh t d s p b (w : World E) :
  registry w !! t = None →
  hook E t d s p b w =
    let w0 := initOnce E w in
    let stb := install_stub E t d nullptr (engine w0) in
    let orig := install_orig E t d nullptr (engine w0) in
    let e := install_next E t d nullptr (engine w0) in
    if stb =? nullptr then
      Some (-1, mkWorld (registry w) (heap w) (init w0) e
                  (calls w0 ++ [CallHook t d]))
    else
      '(hd1, h1) ← updateCallList
          (mkHookData t orig d stb 1 [mkHookElement d s p 1]) (heap w);
      Some (0, mkWorld (<[t := hd1]> (registry w)) h1 (init w0) e
                 (calls w0 ++ [CallHook t d])).
Proof.
  intros Hreg. unfold hook. cbv zeta.
  rewrite registry_initOnce, heap_initOnce, Hreg.
  unfold install_stub, install_orig, install_next.
  destruct (shadowhook_hook_func_addr _ _ _ _ _) as [[stb orig] e]. simpl.
  destruct (stb =? nullptr); [done|].
  by destruct (updateCallList _ _) as [[hd1 h1]|].
Qed.

Lemma unhook_found t d b (w : World E) hd rest :
  t ≠ nullptr → registry w !! t = Some hd →
  erase_first d (hooks hd) = Some rest →
  unhook E t d b w =
    '(hd1, h1) ← updateCallList (set_hooks rest hd) (heap w);
    match hooks hd1 with
    | [] =>
        Some (true, mkWorld (delete t (registry w)) h1 (init w)
                      (shadowhook_unhook E (stub hd1) (engine w)).2
                      (calls w ++ [CallUnhook (stub hd1)]))
    | _ :: _ =>
        Some (true, mkWorld
                      (<[t := set_origin
                                (install_orig E t (start hd1) (origin hd1) (engine w))
                                hd1]> (registry w))
                      h1 (init w)
                      (install_next E t (start hd1) (origin hd1) (engine w))
                      (calls w ++ [CallHook t (start hd1)]))
    end.
Proof.
  intros Ht Hreg Her. unfold unhook.
  destruct (Z.eqb_spec t nullptr); [done|]. rewrite Hreg, Her.
  destruct (updateCallList _ _) as [[hd1 h1]|]; [|done]. simpl.
  destruct (hooks hd1).
  - by destruct (shadowhook_unhook _ _ _).
  - unfold install_orig, install_next.
    by destruct (shadowhook_hook_func_addr _ _ _ _ _) as [[? ?] ?].
Qed.

Lemma unhook_not_found t d b (w : World E) :
  (t = nullptr ∨ registry w !! t = None ∨
   ∃ hd, registry w !! t = Some hd ∧ erase_first d (hooks hd) = None) →
  unhook E t d b w = Some (false, w).
Proof.
  unfold unhook. destruct (Z.eqb_spec t nullptr) as [|Ht]; [done|].
  intros [?|[Hreg|(hd & Hreg & Her)]]; [done| |].
  - by rewrite Hreg.
  - by rewrite Hreg, Her.
Qed.

End Equations.

(** ** Invariants of the registry *)

Section Invariants.

Context (E : Engine).

Lemma chain_ordered_insert hd d s p :
  chain_ordered hd →
  chain_ordered
    (set_hooks (set_insert (mkHookElement d s p (hookId hd + 1)) (hooks hd))
       (set_hookId (hookId hd + 1) hd)).
Proof.
  intros [Hs Hb]. split; simpl.
  - by apply set_insert_sorted.
  - apply set_insert_Forall; simpl; [lia|].
    eapply Forall_impl; [exact Hb|]. simpl. intros; lia.
Qed.

Lemma chain_ordered_erase hd dt rest :
  chain_ordered hd → erase_first dt (hooks hd) = Some rest →
  chain_ordered (set_hooks rest hd).
Proof.
  intros [Hs Hb] Her. apply erase_first_sublist in Her. split; simpl.
  - by eapply sublist_sorted.
  - by eapply sublist_Forall.
Qed.

Lemma chain_ordered_frame hd st o :
  chain_ordered hd → chain_ordered (set_origin o (set_start st hd)).
Proof. by intros [Hs Hb]. Qed.

Lemma hook_preserves_inv t d s p b (w : World E) r w' :
  registry_inv w → hook E t d s p b w = Some (r, w') → registry_inv w'.
Proof.
  intros Hinv Hhook.
  destruct (registry w !! t) as [hd|] eqn:Hreg.
  - rewrite (hook_existing E t d s p b w hd Hreg) in Hhook.
    destruct (hookId hd <? INT_MAX); [|done].
    destruct (updateCallList _ _) as [[hd1 h1]|] eqn:Hu; [|done].
    apply updateCallList_frame in Hu as [st ->].
    simpl in Hhook. injection Hhook as <- <-.
    intros t' d'. simpl. rewrite lookup_insert.
    destruct (decide (t = t')) as [<-|Hne]; [|by apply Hinv].
    intros [= <-]. destruct (Hinv t hd Hreg) as [Hord _]. split.
    + apply chain_ordered_frame. by apply chain_ordered_insert.
    + simpl. apply set_insert_nonempty.
  - rewrite (hook_fresh E t d s p b w Hreg) in Hhook. cbv zeta in Hhook.
    destruct (install_stub _ _ _ _ _ =? nullptr).
    + injection Hhook as <- <-. exact Hinv.
    + destruct (updateCallList _ _) as [[hd1 h1]|] eqn:Hu; [|done].
      apply updateCallList_frame in Hu as [st ->].
      simpl in Hhook. injection Hhook as <- <-.
      intros t' d'. simpl. rewrite lookup_insert.
      destruct (decide (t = t')) as [<-|Hne]; [|by apply Hinv].
      intros [= <-]. split; [|done]. split; simpl.
      * repeat constructor.
      * repeat constructor. simpl. lia.
Qed.

Lemma unhook_preserves_inv t d b (w : World E) r w' :
  registry_inv w → unhook E t d b w = Some (r, w') → registry_inv w'.
Proof.
  intros Hinv Hun.
  destruct (decide (t = nullptr)) as [Ht|Ht].
  { rewrite unhook_not_found in Hun by (by left). by injection Hun as <- <-. }
  destruct (registry w !! t) as [hd|] eqn:Hreg.
  2:{ rewrite unhook_not_found in Hun by (right; by left). by injection Hun as <- <-. }
  destruct (erase_first d (hooks hd)) as [rest|] eqn:Her.
  2:{ rewrite unhook_not_found in Hun by (right; right; eauto).
      by injection Hun as <- <-. }
  rewrite (unhook_found E t d b w hd rest Ht Hreg Her) in Hun.
  destruct (updateCallList _ _) as [[hd1 h1]|] eqn:Hu; [|done].
  apply updateCallList_frame in Hu as [st ->]. simpl in Hun.
  destruct (Hinv t hd Hreg) as [Hord _].
  destruct rest as [|x rest].
  - injection Hun as <- <-. intros t' d'. simpl. rewrite lookup_delete.
    destruct (decide (t = t')); [done|]. by apply Hinv.
  - injection Hun as <- <-. intros t' d'. simpl. rewrite lookup_insert.
    destruct (decide (t = t')) as [<-|Hne]; [|by apply Hinv].
    intros [= <-]. split; [|done].
    apply chain_ordered_frame. by eapply chain_ordered_erase.
Qed.

Lemma registry_unhookAll (w : World E) : registry (unhookAll E w) = ∅.
Proof. unfold unhookAll. by destruct (foldl _ _ _). Qed.

Lemma heap_unhookAll (w : World E) : heap (unhookAll E w) = heap w.
Proof. unfold unhookAll. by destruct (foldl _ _ _). Qed.

Lemma exec_preserves_inv o (w w' : World E) :
  registry_inv w → exec E o w = Some w' → registry_inv w'.
Proof.
  intros Hinv Hex. destruct o as [t d s p b|t d b|]; simpl in Hex.
  - destruct (hook E t d s p b w) as [[r w1]|] eqn:Hh; [|done].
    injection Hex as <-. by eapply hook_preserves_inv.
  - destruct (unhook E t d b w) as [[r w1]|] eqn:Hu; [|done].
    injection Hex as <-. by eapply unhook_preserves_inv.
  - injection Hex as <-. intros t d. by rewrite registry_unhookAll.
Qed.

Lemma run_preserves_inv ops (w w' : World E) :
  registry_inv w → run E ops w = Some w' → registry_inv w'.
Proof.
  revert w. induction ops as [|o ops IH]; intros w Hinv Hrun; simpl in Hrun.
  - by injection Hrun as <-.
  - destruct (exec E o w) as [w1|] eqn:Hex; [|done]. simpl in Hrun.
    eapply IH; [|exact Hrun]. by eapply exec_preserves_inv.
Qed.

Lemma boot_inv h e : registry_inv (boot E h e).
Proof. intros t d. simpl. by rewrite lookup_empty. Qed.

Lemma reachable_inv ops h e (w : World E) :
  run E ops (boot E h e) = Some w → registry_inv w.
Proof. apply run_preserves_inv, boot_inv. Qed.

End Invariants.

(** ** One recomputation (updateCallList) *)

Lemma full_writes_length O l :
  length (full_writes O l) = match l with [] => 0%nat | _ :: _ => S (length l) end.
Proof.
  destruct l as [|e rest]; [done|]. unfold full_writes. simpl. f_equal. f_equal.
  induction rest as [|e' rest IH]; [done|]. simpl. by rewrite IH.
Qed.

Lemma foldl_put_other c ws p :
  p ∉ ws.*1 → foldl put c ws !! p = c !! p.
Proof.
  revert c. induction ws as [|[q u] ws IH]; intros c Hp; [done|].
  simpl. rewrite IH.
  - unfold put; simpl. apply lookup_insert_ne. intros ->. apply Hp. simpl. by left.
  - intros Hin. apply Hp. simpl. by right.
Qed.

Lemma full_writes_slots O l p : p ∈ (full_writes O l).*1 ↔ p ∈ originalFunc <$> l.
Proof.
  destruct l as [|e rest]; [done|]. unfold full_writes.
  rewrite fmap_cons, wiring_slots. simpl. rewrite !elem_of_cons. tauto.
Qed.

(** C6, as the code has it: one recomputation over a chain of [n >= 1]
    entries whose slot pointers are not null performs [n + 1] stores, not
    [n]: the slot of the head entry is first given the origin, then every
    slot is given its final content once, in chain order.  With pairwise
    distinct slots every slot ends with that content.  Nothing else
    changes: of the chain only [start], which becomes the detour of the
    head entry (the origin for an empty chain), and no heap cell that is
    not a slot of the chain.  Over an empty chain nothing is stored. *)
Theorem recompute_stores (d : HookData) (h : Heap) :
  slots_valid (hooks d) →
  ∃ h',
    updateCallList d h = Some (set_start (next_of (origin d) (hooks d)) d, h') ∧
    stores h' = stores h ++ full_writes (origin d) (hooks d) ∧
    full_writes (origin d) (hooks d)
    = match hooks d with
      | [] => []
      | e :: _ => (originalFunc e, origin d) :: wiring (origin d) (hooks d)
      end ∧
    length (stores h')
    = (length (stores h)
       + match hooks d with [] => 0 | _ :: _ => S (length (hooks d)) end)%nat ∧
    (wiring (origin d) (hooks d)).*1 = originalFunc <$> hooks d ∧
    (slots_distinct (hooks d) → wired (cells h') (origin d) (hooks d)) ∧
    (∀ p, p ∉ originalFunc <$> hooks d → cells h' !! p = cells h !! p).
Proof.
  intros Hv. eexists. split; [by apply updateCallList_valid|].
  simpl. repeat split.
  - by rewrite length_app, full_writes_length.
  - apply wiring_slots.
  - apply wired_after_writes.
  - intros p Hp. apply foldl_put_other. by rewrite full_writes_slots.
Qed.

Lemma recompute_stores_witness :
  ∃ h',
    updateCallList sample_chain heap0 = Some (set_start D2 sample_chain, h') ∧
    stores h' = [(S2, T1 + 8); (S2, D1); (S1, T1 + 8)].
Proof.
  destruct (recompute_stores sample_chain heap0) as (h' & Hu & Hs & _).
  - repeat constructor; done.
  - exists h'. split; [exact Hu|exact Hs].
Defined.

(** C6 as stated fails: over the two entries of [sample_chain] the pass
    stores three times, and the slot of the head entry first receives the
    origin, which is not its final content. *)
Lemma recompute_stores_counterexample :
  ∃ d' h',
    updateCallList sample_chain heap0 = Some (d', h') ∧
    stores h' = [(S2, T1 + 8); (S2, D1); (S1, T1 + 8)] ∧
    length (stores h') ≠ length (hooks sample_chain) ∧
    cells h' !! S2 = Some D1 ∧ D1 ≠ T1 + 8.
Proof.
  do 2 eexists. split; [reflexivity|]. split; [reflexivity|].
  split; [simpl; lia|]. split; [reflexivity|]. unfold D1, T1. lia.
Qed.

(** ** Failed operations *)

(** C5: a failing [hook] (it fails only on the first hook of a target, when
    the engine hands back no stub) leaves the registry and the heap of
    slots as they were, and such a call does return -1; an [unhook] that
    returns [false] (null target, no chain for the target, or no entry with
    the detour) leaves the whole state as it was. *)
Theorem failed_operations_change_nothing (E : Engine) :
  (∀ t d s p b (w : World E) r w',
     hook E t d s p b w = Some (r, w') → r ≠ 0 →
     r = -1 ∧ registry w !! t = None ∧
     install_stub E t d nullptr (engine (initOnce E w)) = nullptr ∧
     registry w' = registry w ∧ heap w' = heap w) ∧
  (∀ t d s p b (w : World E),
     registry w !! t = None →
     install_stub E t d nullptr (engine (initOnce E w)) = nullptr →
     ∃ w', hook E t d s p b w = Some (-1, w') ∧
           registry w' = registry w ∧ heap w' = heap w) ∧
  (∀ t d b (w : World E) w', unhook E t d b w = Some (false, w') → w' = w) ∧
  (∀ t d b (w : World E),
     (t = nullptr ∨ registry w !! t = None ∨
      ∃ hd, registry w !! t = Some hd ∧ Forall (λ x, detour x ≠ d) (hooks hd)) →
     unhook E t d b w = Some (false, w)).
Proof.
  split; [|split; [|split]].
  - intros t d s p b w r w' H Hr.
    destruct (registry w !! t) as [hd|] eqn:Hreg.
    + rewrite (hook_existing E t d s p b w hd Hreg) in H.
      destruct (hookId hd <? INT_MAX); [|done].
      destruct (updateCallList _ _) as [[hd1 h1]|]; [|done].
      simpl in H. by injection H as <- <-.
    + rewrite (hook_fresh E t d s p b w Hreg) in H. cbv zeta in H.
      destruct (Z.eqb_spec (install_stub E t d nullptr (engine (initOnce E w))) nullptr).
      * by injection H as <- <-.
      * destruct (updateCallList _ _) as [[hd1 h1]|]; [|done].
        simpl in H. by injection H as <- <-.
  - intros t d s p b w Hreg Hstub.
    rewrite (hook_fresh E t d s p b w Hreg). cbv zeta. rewrite Hstub.
    eexists. split; [reflexivity|done].
  - intros t d b w w' Hun.
    destruct (decide (t = nullptr)) as [Ht|Ht].
    { rewrite unhook_not_found in Hun by (by left). by injection Hun as <-. }
    destruct (registry w !! t) as [hd|] eqn:Hreg.
    2:{ rewrite unhook_not_found in Hun by (right; by left). by injection Hun as <-. }
    destruct (erase_first d (hooks hd)) as [rest|] eqn:Her.
    2:{ rewrite unhook_not_found in Hun by (right; right; eauto).
        by injection Hun as <-. }
    rewrite (unhook_found E t d b w hd rest Ht Hreg Her) in Hun.
    destruct (updateCallList _ _) as [[hd1 h1]|]; [|done]. simpl in Hun.
    by destruct (hooks hd1).
  - intros t d b w Hnf. apply unhook_not_found.
    destruct Hnf as [?|[?|(hd & Hreg & Hall)]]; [by left|right; by left|].
    right; right. exists hd. split; [done|]. by apply erase_first_none.
Qed.

Lemma failed_operations_witness :
  ∃ w', hook refusing_engine T1 D1 S1 200 true (boot refusing_engine heap0 tt)
        = Some (-1, w') ∧
        registry w' = ∅ ∧ heap w' = heap0.
Proof.
  apply (proj1 (proj2 (failed_operations_change_nothing refusing_engine)));
    reflexivity.
Defined.

(** ** Life cycle of a chain *)

(** C7: in every state reached from process start a target is a key of
    the registry exactly when it has a chain with at least one entry;
    removing the only entry of a chain calls the engine's uninstall
    primitive once, with the stub stored in the chain, and erases the
    target; a later install on a target without a chain builds a new chain
    from scratch (counter restarted, the single new entry) around the stub
    and the origin handed back by a new call of the engine's install
    primitive. *)
Theorem chain_lifecycle (E : Engine) :
  (∀ ops h e (w : World E) t,
     run E ops (boot E h e) = Some w →
     (is_Some (registry w !! t) ↔ ∃ d, registry w !! t = Some d ∧ hooks d ≠ [])) ∧
  (∀ (w : World E) t hd x b,
     t ≠ nullptr → registry w !! t = Some hd → hooks hd = [x] →
     ∃ w1, unhook E t (detour x) b w = Some (true, w1) ∧
           registry w1 = delete t (registry w) ∧
           registry w1 !! t = None ∧
           calls w1 = calls w ++ [CallUnhook (stub hd)]) ∧
  (∀ (w : World E) t d s p b,
     registry w !! t = None → s ≠ nullptr →
     install_stub E t d nullptr (engine (initOnce E w)) ≠ nullptr →
     ∃ w2, hook E t d s p b w = Some (0, w2) ∧
           registry w2
           = <[t := mkHookData t
                      (install_orig E t d nullptr (engine (initOnce E w))) d
                      (install_stub E t d nullptr (engine (initOnce E w))) 1
                      [mkHookElement d s p 1]]> (registry w) ∧
           calls w2 = calls (initOnce E w) ++ [CallHook t d]).
Proof.
  split; [|split].
  - intros ops h e w t Hrun. pose proof (reachable_inv E ops h e w Hrun) as Hinv.
    split.
    + intros [d Hd]. exists d. split; [done|]. by apply (Hinv t d).
    + intros (d & Hd & _). by exists d.
  - intros w t hd x b Ht Hreg Hx.
    assert (erase_first (detour x) (hooks hd) = Some []) as Her.
    { rewrite Hx. simpl. by rewrite Z.eqb_refl. }
    rewrite (unhook_found E t (detour x) b w hd [] Ht Hreg Her).
    rewrite updateCallList_empty by done. simpl.
    eexists. split; [reflexivity|]. simpl. split; [done|].
    split; [apply lookup_delete_eq|done].
  - intros w t d s p b Hreg Hs Hstub.
    rewrite (hook_fresh E t d s p b w Hreg). cbv zeta.
    destruct (Z.eqb_spec (install_stub E t d nullptr (engine (initOnce E w))) nullptr);
      [done|].
    rewrite updateCallList_valid by (repeat constructor; done). simpl.
    eexists. split; [reflexivity|]. by simpl.
Qed.

Lemma chain_lifecycle_witness :
  (is_Some (registry sample_world !! T1) ↔
   ∃ d, registry sample_world !! T1 = Some d ∧ hooks d ≠ []) ∧
  (∃ w1, unhook steady_engine T1 D1 true sample_world = Some (true, w1) ∧
         registry w1 = delete T1 (registry sample_world) ∧
         registry w1 !! T1 = None ∧
         calls w1 = calls sample_world ++ [CallUnhook 7000]) ∧
  (∃ w2, hook steady_engine T1 D2 S2 100 true (boot steady_engine heap0 5%nat)
         = Some (0, w2) ∧
         registry w2
         = <[T1 := mkHookData T1 (T1 + 8) D2 7005 1 [mkHookElement D2 S2 100 1]]> ∅ ∧
         calls w2 = [CallInit; CallHook T1 D2]).
Proof.
  destruct (chain_lifecycle steady_engine) as (Hiff & Hlast & Hagain).
  split; [|split].
  - apply (Hiff [OpHook T1 D1 S1 200 true] heap0 0%nat sample_world T1).
    reflexivity.
  - apply (Hlast sample_world T1
             (mkHookData T1 (T1 + 8) D1 7000 1 [mkHookElement D1 S1 200 1])
             (mkHookElement D1 S1 200 1) true); [done|reflexivity|reflexivity].
  - apply (Hagain (boot steady_engine heap0 5%nat) T1 D2 S2 100 true);
      [reflexivity|done|done].
Defined.

(** ** Removal by detour *)

Lemma filter_detour_none d (l : list HookElement) :
  Forall (λ x, detour x ≠ d) l → filter (λ x, detour x = d) l = [].
Proof.
  induction 1 as [|y l Hy _ IH]; [done|]. by rewrite filter_cons_False.
Qed.

(** C8: in a reachable state, when the chain of the target holds two or
    more entries with the detour [d] (and no null slot pointer), one
    [unhook] of [d] returns [true] and removes exactly one entry, the one
    that is below every other entry with that detour in the order of
    (priority, id); all other entries stay, in their order, among them the
    other entries with that detour. *)
Theorem unhook_removes_lowest_match (E : Engine) ops h e (w : World E) t hd d b :
  run E ops (boot E h e) = Some w →
  t ≠ nullptr → registry w !! t = Some hd → slots_valid (hooks hd) →
  (2 ≤ length (filter (λ x, detour x = d) (hooks hd)))%nat →
  ∃ w' l1 x l2 hd',
    unhook E t d b w = Some (true, w') ∧
    hooks hd = l1 ++ x :: l2 ∧ detour x = d ∧
    (∀ y, y ∈ hooks hd → detour y = d → y = x ∨ elem_ltP x y) ∧
    registry w' !! t = Some hd' ∧ hooks hd' = l1 ++ l2 ∧
    S (length (filter (λ x, detour x = d) (hooks hd')))
    = length (filter (λ x, detour x = d) (hooks hd)).
Proof.
  intros Hrun Ht Hreg Hv Htwo.
  destruct (reachable_inv E ops h e w Hrun t hd Hreg) as [[Hsorted _] _].
  destruct (erase_first d (hooks hd)) as [rest|] eqn:Her.
  2:{ apply erase_first_none, filter_detour_none in Her.
      rewrite Her in Htwo. simpl in Htwo. lia. }
  destruct (erase_first_split _ _ _ Her) as (l1 & x & l2 & Hl & -> & Hx & Hl1).
  rewrite Hl in Htwo, Hsorted, Hv.
  rewrite filter_app, filter_cons_True, (filter_detour_none d l1) in Htwo by done.
  simpl in Htwo.
  assert (l1 ++ l2 ≠ []) as Hne.
  { destruct l2; [simpl in Htwo; lia|]. by destruct l1. }
  rewrite (unhook_found E t d b w hd (l1 ++ l2) Ht Hreg Her).
  rewrite updateCallList_valid; simpl.
  2:{ apply Forall_app in Hv as [Hv1 Hv2]. apply Forall_cons in Hv2 as [_ Hv2].
      by apply Forall_app. }
  destruct (l1 ++ l2) as [|z zs] eqn:Hzs; [done|]. rewrite <- Hzs.
  eexists _, l1, x, l2, _. split; [reflexivity|]. simpl.
  split; [done|]. split; [done|]. split.
  - intros y Hy Hyd. rewrite Hl in Hy.
    apply elem_of_app in Hy as [Hy|Hy].
    + by destruct (proj1 (Forall_forall _ _) Hl1 y Hy).
    + apply elem_of_cons in Hy as [->|Hy]; [by left|]. right.
      apply StronglySorted_app_1_r, StronglySorted_inv in Hsorted as [_ Hall].
      by apply (proj1 (Forall_forall _ _) Hall y).
  - split; [apply lookup_insert_eq|]. split; [done|].
    simpl.
    rewrite Hl, !filter_app, filter_cons_True, !(filter_detour_none d l1) by done.
    done.
Qed.

Lemma unhook_removes_lowest_match_witness :
  ∃ w' hd',
    unhook steady_engine T1 D1 true twice_world = Some (true, w') ∧
    registry w' !! T1 = Some hd' ∧
    hooks hd' = [mkHookElement D1 S1 200 1].
Proof.
  destruct (unhook_removes_lowest_match steady_engine twice_ops heap0 0%nat
              twice_world T1
              (mkHookData T1 (T1 + 8) D1 7000 2
                 [mkHookElement D1 S2 100 2; mkHookElement D1 S1 200 1])
              D1 true)
    as (w' & l1 & x & l2 & hd' & Hun & Hl & Hx & Hlow & Hreg & Hh & Hcount).
  - reflexivity.
  - done.
  - reflexivity.
  - repeat constructor; done.
  - vm_compute. lia.
  - exists w', hd'. split; [exact Hun|]. split; [exact Hreg|].
    rewrite Hh. destruct l1 as [|y l1].
    + simpl in Hl. injection Hl as <- <-. done.
    + simpl in Hl. injection Hl as <- Hl.
      destruct l1 as [|y' l1]; simpl in Hl.
      * injection Hl as <- <-.
        destruct (Hlow (mkHookElement D1 S2 100 2)) as [Heq|Hlt];
          [by left|reflexivity|discriminate Heq|discriminate Hlt].
      * injection Hl as _ Hl. by destruct l1.
Defined.

(** ** Calls of the engine *)

Lemma installs_made_snoc_install {E} (w w' : World E) cs t a :
  calls w' = cs ++ [CallHook t a] →
  length (filter (λ c, is_install c = true) cs) = installs_made w →
  installs_made w' = S (installs_made w).
Proof.
  intros Hc Hcs. unfold installs_made at 1. rewrite Hc, filter_app, length_app.
  rewrite filter_cons_True by done. simpl. lia.
Qed.

Lemma installs_made_initOnce {E} (w : World E) :
  length (filter (λ c, is_install c = true) (calls (initOnce E w)))
  = installs_made w.
Proof.
  unfold initOnce, installs_made. destruct (init w); [done|].
  destruct (shadowhook_init _ _ _ _). simpl.
  rewrite filter_app, filter_cons_False by done.
  rewrite filter_nil. by rewrite (right_id_L [] (++)).
Qed.

(** C3, as the code has it: an install on a target that has a chain, and a
    remove that leaves the chain non-empty, each call the engine's install
    primitive exactly once, as their last step, with the target and the
    recomputed entry point, whether or not that entry point changed. *)
Theorem reinstall_after_every_mutation (E : Engine) :
  (∀ t d s p b (w : World E) hd r w',
     registry w !! t = Some hd → hook E t d s p b w = Some (r, w') →
     ∃ d', registry w' !! t = Some d' ∧
           calls w' = calls (initOnce E w) ++ [CallHook t (start d')] ∧
           installs_made w' = S (installs_made w)) ∧
  (∀ t d b (w : World E) w' d',
     unhook E t d b w = Some (true, w') → registry w' !! t = Some d' →
     calls w' = calls w ++ [CallHook t (start d')] ∧
     installs_made w' = S (installs_made w)).
Proof.
  split.
  - intros t d s p b w hd r w' Hreg Hhook.
    rewrite (hook_existing E t d s p b w hd Hreg) in Hhook.
    destruct (hookId hd <? INT_MAX); [|done].
    destruct (updateCallList _ _) as [[hd1 h1]|]; [|done].
    simpl in Hhook. injection Hhook as <- <-. simpl.
    eexists. split; [apply lookup_insert_eq|]. simpl. split; [done|].
    eapply installs_made_snoc_install; [done|]. apply installs_made_initOnce.
  - intros t d b w w' d' Hun Hreg'.
    destruct (decide (t = nullptr)) as [Ht|Ht].
    { by rewrite unhook_not_found in Hun by (by left). }
    destruct (registry w !! t) as [hd|] eqn:Hreg.
    2:{ by rewrite unhook_not_found in Hun by (right; by left). }
    destruct (erase_first d (hooks hd)) as [rest|] eqn:Her.
    2:{ by rewrite unhook_not_found in Hun by (right; right; eauto). }
    rewrite (unhook_found E t d b w hd rest Ht Hreg Her) in Hun.
    destruct (updateCallList _ _) as [[hd1 h1]|]; [|done]. simpl in Hun.
    destruct (hooks hd1); injection Hun as <-; simpl in Hreg'.
    + by rewrite lookup_delete_eq in Hreg'.
    + rewrite lookup_insert_eq in Hreg'. injection Hreg' as <-. simpl.
      split; [done|]. by eapply installs_made_snoc_install.
Qed.

Lemma reinstall_after_every_mutation_witness :
  ∃ w' d', hook steady_engine T1 D2 S2 300 true sample_world = Some (0, w') ∧
           registry w' !! T1 = Some d' ∧
           calls w' = calls sample_world ++ [CallHook T1 (start d')] ∧
           installs_made w' = 2%nat.
Proof.
  destruct (proj1 (reinstall_after_every_mutation steady_engine)
              T1 D2 S2 300 true sample_world
              (mkHookData T1 (T1 + 8) D1 7000 1 [mkHookElement D1 S1 200 1])
              0 (default sample_world
                   (snd <$> hook steady_engine T1 D2 S2 300 true sample_world)))
    as (d' & Hreg & Hcalls & Hn); [reflexivity|reflexivity|].
  eexists _, d'. split; [reflexivity|]. split; [exact Hreg|].
  split; [exact Hcalls|exact Hn].
Defined.

(** C3 as stated fails: installing [D2] behind [D1] (a higher priority
    value) leaves the installed entry point at [D1], and the engine's
    install primitive is called all the same. *)
Lemma reinstall_counterexample :
  ∃ w2,
    run steady_engine first_ops (boot steady_engine heap0 0%nat) = Some sample_world ∧
    hook steady_engine T1 D2 S2 300 true sample_world = Some (0, w2) ∧
    active T1 w2 = active T1 sample_world ∧
    installs_made w2 ≠ installs_made sample_world ∧
    ¬ reinstall_iff_changed T1 sample_world w2.
Proof.
  eexists. split; [reflexivity|]. split; [reflexivity|].
  split; [reflexivity|]. split; [by vm_compute|].
  intros [Hcalled _]. apply Hcalled; by vm_compute.
Qed.

(** ** What the callers are told *)

Lemma erase_first_some_iff d l :
  is_Some (erase_first d l) ↔ ∃ x, x ∈ l ∧ detour x = d.
Proof.
  split.
  - intros [l' Hl']. destruct (erase_first_split _ _ _ Hl') as (l1 & x & l2 & -> & _ & Hx & _).
    exists x. split; [|done]. apply elem_of_app. right. by left.
  - intros (x & Hin & Hx). destruct (erase_first d l) eqn:Her; [by eexists|].
    apply erase_first_none in Her.
    by destruct (proj1 (Forall_forall _ _) Her x Hin).
Qed.

(** C4, as the code has it: only the install primitive's failure on the
    first hook of a target reaches the caller, as the result -1 of [hook],
    which is returned in that case and in no other.  The result of [unhook]
    tells whether an entry with the detour was found in the chain of the
    target, and nothing about the engine; [unhookAll] has no result. *)
Theorem engine_failures_reported (E : Engine) :
  (∀ t d s p b (w : World E) r w',
     registry w !! t = None → hook E t d s p b w = Some (r, w') →
     (r = 0 ∨ r = -1) ∧
     (r = -1 ↔ install_stub E t d nullptr (engine (initOnce E w)) = nullptr)) ∧
  (∀ t d b (w : World E) r w',
     unhook E t d b w = Some (r, w') →
     (r = true ↔
      t ≠ nullptr ∧ ∃ hd x, registry w !! t = Some hd ∧ x ∈ hooks hd ∧ detour x = d)).
Proof.
  split.
  - intros t d s p b w r w' Hreg Hhook.
    rewrite (hook_fresh E t d s p b w Hreg) in Hhook. cbv zeta in Hhook.
    destruct (Z.eqb_spec (install_stub E t d nullptr (engine (initOnce E w))) nullptr)
      as [Hs|Hs].
    + injection Hhook as <- <-. split; [by right|done].
    + destruct (updateCallList _ _) as [[hd1 h1]|]; [|done].
      simpl in Hhook. injection Hhook as <- <-. split; [by left|done].
  - intros t d b w r w' Hun.
    destruct (decide (t = nullptr)) as [Ht|Ht].
    { rewrite unhook_not_found in Hun by (by left). injection Hun as <- <-.
      split; [done|]. by intros [? _]. }
    destruct (registry w !! t) as [hd|] eqn:Hreg.
    2:{ rewrite unhook_not_found in Hun by (right; by left). injection Hun as <- <-.
        split; [done|]. by intros [_ (? & ? & ? & _)]. }
    destruct (erase_first d (hooks hd)) as [rest|] eqn:Her.
    2:{ rewrite unhook_not_found in Hun by (right; right; eauto).
        injection Hun as <- <-. split; [done|].
        intros [_ (hd' & x & [= <-] & Hin & Hx)].
        assert (is_Some (erase_first d (hooks hd))) as [? Hsome]
          by (apply erase_first_some_iff; eauto).
        congruence. }
    assert (is_Some (erase_first d (hooks hd))) as Hsome by eauto.
    apply erase_first_some_iff in Hsome as (x & Hin & Hx).
    rewrite (unhook_found E t d b w hd rest Ht Hreg Her) in Hun.
    destruct (updateCallList _ _) as [[hd1 h1]|]; [|done]. simpl in Hun.
    assert (r = true) as -> by (destruct (hooks hd1); by injection Hun as <- _).
    split; [|done]. intros _. split; [done|]. by exists hd, x.
Qed.

Lemma engine_failures_reported_witness :
  install_stub refusing_engine T1 D1 nullptr
    (engine (initOnce refusing_engine (boot refusing_engine heap0 tt))) = nullptr ∧
  (T1 ≠ nullptr ∧
   ∃ hd x, registry sample_world !! T1 = Some hd ∧ x ∈ hooks hd ∧ detour x = D1).
Proof.
  split.
  - edestruct (proj1 (engine_failures_reported refusing_engine)
                 T1 D1 S1 200 true (boot refusing_engine heap0 tt))
      as [_ [Hfail _]]; [reflexivity|reflexivity|].
    by apply Hfail.
  - edestruct (proj2 (engine_failures_reported steady_engine)
                 T1 D1 true sample_world) as [Hfound _]; [reflexivity|].
    by apply Hfound.
Defined.

(** C4 as stated fails: on [grudging_engine] the uninstall primitive
    reports a failure when the last entry of [T1] is removed, [unhook]
    returns [true], and the chain is gone from the registry. *)
Lemma engine_failure_swallowed :
  ∃ w',
    run grudging_engine first_ops (boot grudging_engine heap0 0%nat)
    = Some grudging_world ∧
    (shadowhook_unhook grudging_engine 7000 (engine grudging_world)).1 ≠ RT_SUCCESS ∧
    unhook grudging_engine T1 D1 true grudging_world = Some (true, w') ∧
    calls w' = calls grudging_world ++ [CallUnhook 7000] ∧
    registry w' !! T1 = None.
Proof.
  eexists. split; [reflexivity|]. split; [by vm_compute|].
  split; [reflexivity|]. split; reflexivity.
Qed.

(** ** The origin field *)

(** C2, as the code has it: the origin of a chain is what the engine's
    install primitive stored through [&hookData->origin] at its last call
    for the target.  That call is made on the first hook of the target
    (over a null origin), and again by every later install and by every
    remove that leaves an entry (over the current origin); so the origin
    keeps its value through such an operation exactly when the engine hands
    the same value back.  Operations on other targets do not touch it. *)
Theorem origin_is_engine_answer (E : Engine) :
  (∀ t d s p b (w : World E) w',
     registry w !! t = None → hook E t d s p b w = Some (0, w') →
     ∃ d', registry w' !! t = Some d' ∧
           origin d' = install_orig E t d nullptr (engine (initOnce E w))) ∧
  (∀ t d s p b (w : World E) hd r w',
     registry w !! t = Some hd → hook E t d s p b w = Some (r, w') →
     ∃ d', registry w' !! t = Some d' ∧
           origin d'
           = install_orig E t (start d') (origin hd) (engine (initOnce E w)) ∧
           (origin d' = origin hd ↔
            install_orig E t (start d') (origin hd) (engine (initOnce E w))
            = origin hd)) ∧
  (∀ t d b (w : World E) hd w' d',
     registry w !! t = Some hd → unhook E t d b w = Some (true, w') →
     registry w' !! t = Some d' →
     origin d' = install_orig E t (start d') (origin hd) (engine w) ∧
     (origin d' = origin hd ↔
      install_orig E t (start d') (origin hd) (engine w) = origin hd)) ∧
  (∀ o (w : World E) w' t t',
     op_target o = Some t → t' ≠ t → exec E o w = Some w' →
     registry w' !! t' = registry w !! t').
Proof.
  split; [|split; [|split]].
  - intros t d s p b w w' Hreg Hhook.
    rewrite (hook_fresh E t d s p b w Hreg) in Hhook. cbv zeta in Hhook.
    destruct (install_stub _ _ _ _ _ =? nullptr); [done|].
    destruct (updateCallList _ _) as [[hd1 h1]|] eqn:Hu; [|done].
    apply updateCallList_frame in Hu as [st ->].
    simpl in Hhook. injection Hhook as <-. simpl.
    eexists. split; [apply lookup_insert_eq|done].
  - intros t d s p b w hd r w' Hreg Hhook.
    rewrite (hook_existing E t d s p b w hd Hreg) in Hhook.
    destruct (hookId hd <? INT_MAX); [|done].
    destruct (updateCallList _ _) as [[hd1 h1]|] eqn:Hu; [|done].
    apply updateCallList_frame in Hu as [st ->].
    simpl in Hhook. injection Hhook as <- <-. simpl.
    eexists. split; [apply lookup_insert_eq|done].
  - intros t d b w hd w' d' Hreg Hun Hreg'.
    destruct (decide (t = nullptr)) as [Ht|Ht].
    { by rewrite unhook_not_found in Hun by (by left). }
    destruct (erase_first d (hooks hd)) as [rest|] eqn:Her.
    2:{ by rewrite unhook_not_found in Hun by (right; right; eauto). }
    rewrite (unhook_found E t d b w hd rest Ht Hreg Her) in Hun.
    destruct (updateCallList _ _) as [[hd1 h1]|] eqn:Hu; [|done].
    apply updateCallList_frame in Hu as [st ->]. simpl in Hun.
    destruct rest; injection Hun as <-; simpl in Hreg'.
    + by rewrite lookup_delete_eq in Hreg'.
    + rewrite lookup_insert_eq in Hreg'. by injection Hreg' as <-.
  - intros o w w' t t' Ho Hne Hex.
    destruct o as [t0 d s p b|t0 d b|]; simpl in Ho; [| |done];
      injection Ho as ->; simpl in Hex.
    + destruct (hook E t d s p b w) as [[r w1]|] eqn:Hhook; [|done].
      injection Hex as <-.
      destruct (registry w !! t) as [hd|] eqn:Hreg.
      * rewrite (hook_existing E t d s p b w hd Hreg) in Hhook.
        destruct (hookId hd <? INT_MAX); [|done].
        destruct (updateCallList _ _) as [[hd1 h1]|]; [|done].
        simpl in Hhook. injection Hhook as <- <-. simpl.
        by apply lookup_insert_ne.
      * rewrite (hook_fresh E t d s p b w Hreg) in Hhook. cbv zeta in Hhook.
        destruct (install_stub _ _ _ _ _ =? nullptr);
          [by injection Hhook as <- <-|].
        destruct (updateCallList _ _) as [[hd1 h1]|]; [|done].
        simpl in Hhook. injection Hhook as <- <-. simpl.
        by apply lookup_insert_ne.
    + destruct (unhook E t d b w) as [[r w1]|] eqn:Hun; [|done].
      injection Hex as <-.
      destruct (decide (t = nullptr)) as [Ht|Ht].
      { rewrite unhook_not_found in Hun by (by left). by injection Hun as <- <-. }
      destruct (registry w !! t) as [hd|] eqn:Hreg.
      2:{ rewrite unhook_not_found in Hun by (right; by left).
          by injection Hun as <- <-. }
      destruct (erase_first d (hooks hd)) as [rest|] eqn:Her.
      2:{ rewrite unhook_not_found in Hun by (right; right; eauto).
          by injection Hun as <- <-. }
      rewrite (unhook_found E t d b w hd rest Ht Hreg Her) in Hun.
      destruct (updateCallList _ _) as [[hd1 h1]|]; [|done]. simpl in Hun.
      destruct (hooks hd1); injection Hun as <- <-; simpl.
      * by apply lookup_delete_ne.
      * by apply lookup_insert_ne.
Qed.

Lemma origin_is_engine_answer_witness :
  ∃ d', registry twice_world !! T1 = Some d' ∧ origin d' = T1 + 8.
Proof.
  destruct (proj1 (proj2 (origin_is_engine_answer steady_engine))
              T1 D1 S2 100 true sample_world
              (mkHookData T1 (T1 + 8) D1 7000 1 [mkHookElement D1 S1 200 1])
              0 twice_world) as (d' & Hreg & Horig & _);
    [reflexivity|reflexivity|].
  exists d'. split; [exact Hreg|]. rewrite Horig. reflexivity.
Defined.

(** C2 as stated fails: on [chaining_engine] the second install on [T1], of
    an entry that does not even become the head, replaces the origin
    [T1 + 8] of the chain by the address [D1] the engine hands back. *)
Lemma origin_rewritten :
  ∃ d1 w2 d2,
    run chaining_engine first_ops (boot chaining_engine heap0 ∅)
    = Some chaining_world ∧
    registry chaining_world !! T1 = Some d1 ∧ origin d1 = T1 + 8 ∧
    hook chaining_engine T1 D2 S2 300 true chaining_world = Some (0, w2) ∧
    registry w2 !! T1 = Some d2 ∧ origin d2 = D1 ∧ origin d2 ≠ origin d1.
Proof.
  do 3 eexists. split; [reflexivity|]. split; [reflexivity|].
  split; [reflexivity|]. split; [reflexivity|]. split; [reflexivity|].
  split; [reflexivity|]. by vm_compute.
Qed.

(** ** The wiring after an operation *)

Lemma wired_walk c O l :
  wired c O l → walk c (next_of O l) l = (detour <$> l) ++ [O].
Proof.
  induction l as [|x rest IH]; [done|].
  intros [Hx Hrest]. simpl. rewrite Hx. simpl. f_equal. by apply IH.
Qed.

Lemma recomputed_chain X h hd1 h1 :
  updateCallList X h = Some (hd1, h1) →
  slots_valid (hooks hd1) → slots_distinct (hooks hd1) →
  hd1 = set_start (next_of (origin X) (hooks X)) X ∧
  wired (cells h1) (origin X) (hooks X).
Proof.
  intros Hu Hv Hnd.
  destruct (updateCallList_frame _ _ _ _ Hu) as [st ->]. simpl in Hv, Hnd.
  rewrite updateCallList_valid in Hu by done. injection Hu as -> <-.
  split; [done|]. simpl. by apply wired_after_writes.
Qed.

(** A successful operation on [t] that leaves [t] a chain [d'] ran one
    recomputation, over a chain [X] that has the entries of [d'] and the
    origin of before the operation, and then let the engine set the
    origin. *)
Lemma succeeded_recompute (E : Engine) o (w w' : World E) t d' :
  registry_inv w → op_target o = Some t → succeeded E o w w' →
  registry w' !! t = Some d' →
  ∃ X hd1 v,
    updateCallList X (heap w) = Some (hd1, heap w') ∧ d' = set_origin v hd1 ∧
    chain_ordered X ∧ hooks X ≠ [] ∧
    (∀ d0, registry w !! t = Some d0 → origin X = origin d0) ∧
    (registry w !! t = None → v = origin X).
Proof.
  intros Hinv Ho Hsucc Hreg'.
  destruct o as [t0 d s p b|t0 d b|]; simpl in Ho; [| |done];
    injection Ho as ->; simpl in Hsucc.
  - destruct (registry w !! t) as [hd|] eqn:Hreg.
    + rewrite (hook_existing E t d s p b w hd Hreg) in Hsucc.
      destruct (hookId hd <? INT_MAX); [|done].
      destruct (updateCallList _ _) as [[hd1 h1]|] eqn:Hu; [|done].
      simpl in Hsucc. injection Hsucc as <-. simpl in *.
      rewrite lookup_insert_eq in Hreg'. injection Hreg' as <-.
      eexists _, hd1, _. split; [exact Hu|]. split; [done|].
      split; [apply chain_ordered_insert; by apply (Hinv t hd)|].
      split; [apply set_insert_nonempty|]. split; [by intros ? [= <-]|done].
    + rewrite (hook_fresh E t d s p b w Hreg) in Hsucc. cbv zeta in Hsucc.
      destruct (install_stub _ _ _ _ _ =? nullptr); [done|].
      destruct (updateCallList _ _) as [[hd1 h1]|] eqn:Hu; [|done].
      simpl in Hsucc. injection Hsucc as <-. simpl in *.
      rewrite lookup_insert_eq in Hreg'. injection Hreg' as <-.
      eexists _, hd1, _. split; [exact Hu|].
      destruct (updateCallList_frame _ _ _ _ Hu) as [st ->].
      split; [reflexivity|]. simpl.
      split; [split; simpl; repeat constructor; simpl; lia|].
      split; [done|]. split; [done|done].
  - destruct (decide (t = nullptr)) as [Ht|Ht].
    { by rewrite unhook_not_found in Hsucc by (by left). }
    destruct (registry w !! t) as [hd|] eqn:Hreg.
    2:{ by rewrite unhook_not_found in Hsucc by (right; by left). }
    destruct (erase_first d (hooks hd)) as [rest|] eqn:Her.
    2:{ by rewrite unhook_not_found in Hsucc by (right; right; eauto). }
    rewrite (unhook_found E t d b w hd rest Ht Hreg Her) in Hsucc.
    destruct (updateCallList _ _) as [[hd1 h1]|] eqn:Hu; [|done].
    destruct (updateCallList_frame _ _ _ _ Hu) as [st ->]. simpl in Hsucc.
    destruct rest as [|x rest]; injection Hsucc as <-; simpl in Hreg'.
    { by rewrite lookup_delete_eq in Hreg'. }
    rewrite lookup_insert_eq in Hreg'. injection Hreg' as <-.
    eexists _, _, _. split; [exact Hu|]. split; [done|].
    split; [eapply chain_ordered_erase; [by apply (Hinv t hd)|done]|].
    split; [done|]. split; [by intros ? [= <-]|done].
Qed.

(** C1, as the code has it.  Take a state reached from process start and a
    successful install or remove on a target that leaves it a chain of
    [n >= 1] entries whose slot pointers are not null and pairwise
    distinct.  The entries are ascending in (priority, id); the slot of
    entry [i] holds the detour of entry [i + 1]; the slot of the last entry
    holds [O], the value the origin field had when the wiring was
    recomputed, that is the origin handed back by the engine on a first
    install and the origin from before the operation otherwise; [start] is
    the detour of the first entry; so the walk from [start] meets the
    detours in chain order and ends in [O].  [O] is the origin of the chain
    after the operation whenever the engine's re-install handed back the
    same value.  A recomputation over an empty chain sets [start] to the
    origin.  Ids follow registration order: an install on an existing chain
    inserts its entry with an id above all ids of the chain. *)
Theorem wiring_after_operation (E : Engine) :
  (∀ ops h e (w : World E) o t w' d',
     run E ops (boot E h e) = Some w →
     op_target o = Some t → succeeded E o w w' →
     registry w' !! t = Some d' →
     slots_valid (hooks d') → slots_distinct (hooks d') →
     let O := match registry w !! t with
              | Some d0 => origin d0
              | None => origin d'
              end in
     hooks d' ≠ [] ∧ chain_ordered d' ∧
     wired (cells (heap w')) O (hooks d') ∧
     (∃ x rest, hooks d' = x :: rest ∧ start d' = detour x) ∧
     walk (cells (heap w')) (start d') (hooks d') = (detour <$> hooks d') ++ [O] ∧
     (origin d' = O → wired_to_origin t w')) ∧
  (∀ d h, hooks d = [] → updateCallList d h = Some (set_start (origin d) d, h)) ∧
  (∀ ops h e (w : World E) t d s p b d0 r w' d',
     run E ops (boot E h e) = Some w →
     registry w !! t = Some d0 → hook E t d s p b w = Some (r, w') →
     registry w' !! t = Some d' →
     hooks d' = set_insert (mkHookElement d s p (hookId d0 + 1)) (hooks d0) ∧
     Forall (λ x, id x < hookId d0 + 1) (hooks d0)).
Proof.
  split; [|split].
  - intros ops h e w o t w' d' Hrun Ho Hsucc Hreg' Hv Hnd O.
    pose proof (reachable_inv E ops h e w Hrun) as Hinv.
    destruct (succeeded_recompute E o w w' t d' Hinv Ho Hsucc Hreg')
      as (X & hd1 & v & Hu & -> & Hord & Hne & Hsome & Hnone).
    simpl in Hv, Hnd.
    destruct (recomputed_chain _ _ _ _ Hu Hv Hnd) as [-> Hw].
    assert (O = origin X) as HO.
    { unfold O. destruct (registry w !! t) as [d0|] eqn:Hreg.
      - symmetry. by apply Hsome.
      - simpl. by apply Hnone. }
    rewrite HO. simpl. split; [done|]. split; [done|]. split; [done|].
    split.
    { destruct (hooks X) as [|x rest]; [done|]. by exists x, rest. }
    split; [by apply wired_walk|].
    intros Hv'. eexists. split; [exact Hreg'|]. simpl. by rewrite Hv'.
  - apply updateCallList_empty.
  - intros ops h e w t d s p b d0 r w' d' Hrun Hreg Hhook Hreg'.
    destruct (reachable_inv E ops h e w Hrun t d0 Hreg) as [[_ Hb] _].
    rewrite (hook_existing E t d s p b w d0 Hreg) in Hhook.
    destruct (hookId d0 <? INT_MAX); [|done].
    destruct (updateCallList _ _) as [[hd1 h1]|] eqn:Hu; [|done].
    destruct (updateCallList_frame _ _ _ _ Hu) as [st ->].
    simpl in Hhook. injection Hhook as <- <-. simpl in Hreg'.
    rewrite lookup_insert_eq in Hreg'. injection Hreg' as <-.
    split; [done|]. eapply Forall_impl; [exact Hb|]. simpl. intros; lia.
Qed.

Lemma wiring_after_operation_witness :
  ∃ w' d',
    run steady_engine behind_ops (boot steady_engine heap0 0%nat) = Some w' ∧
    registry w' !! T1 = Some d' ∧
    walk (cells (heap w')) (start d') (hooks d') = [D1; D2; T1 + 8] ∧
    wired_to_origin T1 w'.
Proof.
  destruct (proj1 (wiring_after_operation steady_engine)
              first_ops heap0 0%nat sample_world
              (OpHook T1 D2 S2 300 true) T1
              (default sample_world
                 (run steady_engine behind_ops (boot steady_engine heap0 0%nat)))
              (mkHookData T1 (T1 + 8) D1 7000 2
                 [mkHookElement D1 S1 200 1; mkHookElement D2 S2 300 2]))
    as (_ & _ & _ & _ & Hwalk & Hwired).
  - reflexivity.
  - reflexivity.
  - reflexivity.
  - reflexivity.
  - repeat constructor; done.
  - apply (bool_decide_unpack _). by vm_compute.
  - eexists _, _. split; [reflexivity|]. split; [reflexivity|].
    split; [exact Hwalk|]. by apply Hwired.
Defined.

(** C1 as stated fails in three ways, each after two completed installs on
    [T1].  On [chaining_engine] the engine's re-install hands back another
    origin than the one just written into the slot of the last entry.  On
    [steady_engine], when both installs name the same slot, the slot of the
    first entry holds the origin and not the detour of the second; and when
    the second install passes a null slot pointer, [start] is the origin
    and not the detour of the first entry. *)
Lemma wiring_counterexample :
  (∃ w, run chaining_engine behind_ops (boot chaining_engine heap0 ∅) = Some w ∧
        ¬ wired_to_origin T1 w) ∧
  (∃ w, run steady_engine shared_slot_ops (boot steady_engine heap0 0%nat) = Some w ∧
        ¬ wired_to_origin T1 w) ∧
  (∃ w, run steady_engine null_slot_ops (boot steady_engine heap0 0%nat) = Some w ∧
        ¬ wired_to_origin T1 w).
Proof.
  split; [|split]; eexists; (split; [reflexivity|]);
    intros (d & Hreg & Hw & Hs); vm_compute in Hreg; injection Hreg as <-.
  - destruct Hw as (_ & Hlast & _). vm_compute in Hlast. discriminate.
  - destruct Hw as (Hfirst & _). vm_compute in Hfirst. discriminate.
  - vm_compute in Hs. discriminate.
Qed.

(** ** The resolver *)

Section ResolverFacts.

Context (sscanf_base : string → option Z)
        (sscanf_range : string → option (Z * Z))
        (resolveSignature : Z → Z → string → Z).

Lemma resolve_initialized maps identifier s :
  Resolver.initialized s = true →
  (Resolver.resolveIdentifier sscanf_base sscanf_range resolveSignature
     maps identifier s).2 = s.
Proof.
  intros Hi. unfold Resolver.resolveIdentifier. rewrite Hi.
  destruct (_ || _); [done|]. by destruct (_ =? 0).
Qed.

Lemma resolve_unusable maps identifier s :
  Resolver.initialized s = true →
  Resolver.base s = 0 ∨ Resolver.size s = 0 →
  Resolver.resolveIdentifier sscanf_base sscanf_range resolveSignature
    maps identifier s = (nullptr, s).
Proof.
  intros Hi Hz. unfold Resolver.resolveIdentifier. rewrite Hi.
  by destruct Hz as [-> | ->]; rewrite ?orb_true_r.
Qed.

Lemma resolve_calls_unusable later s :
  Resolver.initialized s = true →
  Resolver.base s = 0 ∨ Resolver.size s = 0 →
  Resolver.resolve_calls sscanf_base sscanf_range resolveSignature later s
  = ((λ _, nullptr) <$> later, s).
Proof.
  intros Hi Hz. induction later as [|[maps identifier] later IH]; [done|].
  simpl. rewrite resolve_unusable by done. by rewrite IH.
Qed.

(** C10: the first call of [resolveIdentifier] scans the memory map for
    libminecraftpe.so, once for the base and once for the size, and keeps
    the outcome; when the base or the size so found is zero, that call and
    every later call, whatever the identifier and whatever the memory map
    has become, returns [nullptr] and scans nothing. *)
Theorem failed_scan_is_cached maps0 identifier0 r1 s1 :
  Resolver.resolveIdentifier sscanf_base sscanf_range resolveSignature
    maps0 identifier0 Resolver.statics0 = (r1, s1) →
  Resolver.base s1 = 0 ∨ Resolver.size s1 = 0 →
  r1 = nullptr ∧
  Resolver.initialized s1 = true ∧
  Resolver.base s1 = Resolver.getLibBase sscanf_base maps0 "libminecraftpe.so" ∧
  Resolver.size s1 = Resolver.getLibSize sscanf_range maps0 "libminecraftpe.so" ∧
  Resolver.scanned s1 = ["libminecraftpe.so"; "libminecraftpe.so"] ∧
  ∀ later,
    Resolver.resolve_calls sscanf_base sscanf_range resolveSignature later s1
    = ((λ _, nullptr) <$> later, s1).
Proof.
  intros Hfirst Hz. unfold Resolver.resolveIdentifier in Hfirst. simpl in Hfirst.
  destruct (_ || _) eqn:Hb.
  - injection Hfirst as <- <-. simpl in *.
    repeat (split; [done|]). intros later. by apply resolve_calls_unusable.
  - exfalso. destruct (_ =? 0) in Hfirst; injection Hfirst as _ <-;
      simpl in Hz; destruct Hz as [Hz|Hz]; rewrite Hz in Hb;
      by rewrite ?orb_true_r in Hb.
Qed.

End ResolverFacts.

Lemma failed_scan_is_cached_witness :
  Resolver.getLibBase sample_sscanf_base maps_with "libminecraftpe.so" = 2046820352 ∧
  Resolver.getLibSize sample_sscanf_range maps_with "libminecraftpe.so" = 9437184 ∧
  ∃ s1,
    Resolver.resolveIdentifier sample_sscanf_base sample_sscanf_range
      sample_resolveSignature maps_without "48 89 5C 24 ?" Resolver.statics0
    = (nullptr, s1) ∧
    Resolver.resolve_calls sample_sscanf_base sample_sscanf_range
      sample_resolveSignature
      [(maps_with, "48 89 5C 24 ?"); (maps_with, "40 53 48 83 EC")] s1
    = ([nullptr; nullptr], s1) ∧
    Resolver.scanned s1 = ["libminecraftpe.so"; "libminecraftpe.so"].
Proof.
  split; [by vm_compute|]. split; [by vm_compute|].
  destruct (failed_scan_is_cached sample_sscanf_base sample_sscanf_range
              sample_resolveSignature maps_without "48 89 5C 24 ?" nullptr
              (Resolver.mkStatics true 0 0 ["libminecraftpe.so"; "libminecraftpe.so"]))
    as (_ & _ & _ & _ & Hscanned & Hlater).
  - reflexivity.
  - by left.
  - eexists. split; [reflexivity|]. split; [|exact Hscanned].
    apply (Hlater [(maps_with, "48 89 5C 24 ?"); (maps_with, "40 53 48 83 EC")]).
Defined.

(** ** Sequences of installs and removals *)

(** *** The chain as a list of requests *)

Lemma strip_set_insert x l :
  Forall (λ y, id y < id x) l →
  strip <$> set_insert x l = rins (strip x) (strip <$> l).
Proof.
  induction 1 as [|y l Hy _ IH]; [done|]. simpl.
  destruct (Z.ltb_spec (priority x) (priority y)) as [Hlt|Hge].
  - assert (elem_lt x y = true) as -> by (apply elem_lt_spec; lia). done.
  - assert (elem_lt x y = false) as ->.
    { destruct (elem_lt x y) eqn:Hxy; [|done]. apply elem_lt_spec in Hxy. lia. }
    assert (elem_lt y x = true) as -> by (apply elem_lt_spec; lia).
    simpl. f_equal. apply IH.
Qed.

Lemma strip_erase_first (d : Z) (l : list HookElement) :
  rerase d (strip <$> l)
  = (λ l' : list HookElement, strip <$> l') <$> erase_first d l.
Proof.
  induction l as [|y l IH]; [done|]. rewrite fmap_cons. simpl.
  destruct (detour y =? d); [done|]. rewrite IH.
  by destruct (erase_first d l).
Qed.

Lemma strip_next_of O (l1 l2 : list HookElement) :
  strip <$> l1 = strip <$> l2 → next_of O l1 = next_of O l2.
Proof.
  destruct l1 as [|x l1], l2 as [|y l2]; try done.
  rewrite !fmap_cons. unfold strip at 1 3. by intros [= Hd _ _ _].
Qed.

Lemma strip_wiring O (l1 l2 : list HookElement) :
  strip <$> l1 = strip <$> l2 → wiring O l1 = wiring O l2.
Proof.
  revert l2. induction l1 as [|x l1 IH]; intros [|y l2]; try done.
  rewrite !fmap_cons. unfold strip at 1 3. intros [= Hd Hsl Hp Hs].
  cbn [wiring]. rewrite Hsl, (strip_next_of O l1 l2 Hs). f_equal. by apply IH.
Qed.

Lemma strip_full_writes O (l1 l2 : list HookElement) :
  strip <$> l1 = strip <$> l2 → full_writes O l1 = full_writes O l2.
Proof.
  intros Hs. pose proof (strip_wiring O l1 l2 Hs) as Hw.
  destruct l1 as [|x l1], l2 as [|y l2]; try done.
  unfold full_writes. rewrite Hw. f_equal.
  revert Hs. rewrite !fmap_cons. unfold strip at 1 3. intros [= _ Hsl _ _].
  by rewrite Hsl.
Qed.

Lemma strip_slots (l : list HookElement) : req_slot <$> (strip <$> l) = originalFunc <$> l.
Proof. by rewrite <- list_fmap_compose. Qed.

Lemma strip_valid (l : list HookElement) :
  Forall (λ r, req_slot r ≠ nullptr) (strip <$> l) ↔ slots_valid l.
Proof. unfold slots_valid. by rewrite Forall_fmap. Qed.

(** *** Insertion and erasure on requests *)

Lemma rins_elem r x L : x ∈ rins r L ↔ x = r ∨ x ∈ L.
Proof.
  induction L as [|y L IH]; simpl.
  - rewrite list_elem_of_singleton. split; [by left|].
    intros [Hx|Hx]; [done|by apply elem_of_nil in Hx].
  - destruct (req_priority r <? req_priority y).
    + by rewrite elem_of_cons.
    + rewrite !elem_of_cons, IH. tauto.
Qed.

Lemma rins_Forall (P : Request → Prop) r L :
  P r → Forall P L → Forall P (rins r L).
Proof.
  intros Hr HL. apply Forall_forall. intros x Hx.
  apply rins_elem in Hx as [->|Hx]; [done|].
  by apply (proj1 (Forall_forall P L) HL).
Qed.

Lemma rins_nonempty r L : rins r L ≠ [].
Proof. destruct L as [|y L]; simpl; [done|]. by destruct (_ <? _). Qed.

Lemma rins_sorted r L :
  StronglySorted by_priority L → StronglySorted by_priority (rins r L).
Proof.
  induction 1 as [|y L Hs IH Hy]; simpl; [repeat constructor|].
  destruct (Z.ltb_spec (req_priority r) (req_priority y)) as [Hlt|Hge].
  - constructor; [by constructor|]. constructor; [unfold by_priority; lia|].
    eapply Forall_impl; [exact Hy|]. unfold by_priority. simpl. intros; lia.
  - constructor; [done|]. by apply rins_Forall.
Qed.

Lemma rsort_from_snoc L reqs r :
  rsort_from L (reqs ++ [r]) = rins r (rsort_from L reqs).
Proof. unfold rsort_from. by rewrite foldl_app. Qed.

Lemma rsort_from_sorted L reqs :
  StronglySorted by_priority L → StronglySorted by_priority (rsort_from L reqs).
Proof.
  revert L. induction reqs as [|r reqs IH]; intros L HL; [done|].
  simpl. apply IH. by apply rins_sorted.
Qed.

Lemma rsort_from_Forall (P : Request → Prop) L reqs :
  Forall P L → Forall P reqs → Forall P (rsort_from L reqs).
Proof.
  revert L. induction reqs as [|r reqs IH]; intros L HL Hreqs; [done|].
  apply Forall_cons in Hreqs as [Hr Hreqs]. simpl. apply IH; [|done].
  by apply rins_Forall.
Qed.

Lemma rsort_from_nonempty L reqs : L ≠ [] → rsort_from L reqs ≠ [].
Proof.
  revert L. induction reqs as [|r reqs IH]; intros L HL; [done|].
  simpl. apply IH, rins_nonempty.
Qed.

(** Where a request lands in a list sorted by priority. *)
Lemma rins_split r L :
  StronglySorted by_priority L →
  ∃ A B, rins r L = A ++ r :: B ∧ L = A ++ B ∧
         Forall (λ y, req_priority y ≤ req_priority r) A ∧
         Forall (λ y, req_priority r < req_priority y) B.
Proof.
  induction 1 as [|y L Hs IH Hy]; simpl.
  - by exists [], [].
  - destruct (Z.ltb_spec (req_priority r) (req_priority y)) as [Hlt|Hge].
    + exists [], (y :: L). repeat split; [constructor|].
      constructor; [done|].
      eapply Forall_impl; [exact Hy|]. unfold by_priority. simpl. intros; lia.
    + destruct IH as (A & B & -> & -> & HA & HB).
      exists (y :: A), B. repeat split; [|done]. by constructor.
Qed.

Lemma rerase_found d A x B :
  req_detour x = d → Forall (λ y, req_detour y ≠ d) A →
  rerase d (A ++ x :: B) = Some (A ++ B).
Proof.
  intros Hx. induction 1 as [|y A Hy _ IH]; simpl.
  - by destruct (Z.eqb_spec (req_detour x) d).
  - destruct (Z.eqb_spec (req_detour y) d); [done|]. by rewrite IH.
Qed.

(** A later request never lands in front of the request [x] a removal by
    [d] would undo, unless it has another detour; so [x] stays the first of
    its detour, and the rest of the list is as if [x] were not there. *)
Lemma rins_around d r A x B :
  req_detour x = d →
  Forall (λ y, req_detour y ≠ d) A →
  Forall (λ y, req_priority y ≤ req_priority x) A →
  Forall (λ y, req_priority x ≤ req_priority y) B →
  (req_detour r = d → req_priority x ≤ req_priority r) →
  ∃ A' B',
    rins r (A ++ x :: B) = A' ++ x :: B' ∧ rins r (A ++ B) = A' ++ B' ∧
    Forall (λ y, req_detour y ≠ d) A' ∧
    Forall (λ y, req_priority y ≤ req_priority x) A' ∧
    Forall (λ y, req_priority x ≤ req_priority y) B'.
Proof.
  intros Hx HdA HpA HpB Hr.
  induction A as [|a A IH]; simpl.
  - destruct (Z.ltb_spec (req_priority r) (req_priority x)) as [Hlt|Hge].
    + exists [r], B. split; [done|]. split.
      { destruct B as [|b B]; [done|]. simpl.
        apply Forall_cons in HpB as [Hb _].
        destruct (Z.ltb_spec (req_priority r) (req_priority b)); [done|lia]. }
      split; [constructor; [|done]; intros Heq; specialize (Hr Heq); lia|].
      split; [constructor; [lia|done]|done].
    + exists [], (rins r B). split; [done|]. split; [done|].
      split; [done|]. split; [done|]. by apply rins_Forall.
  - apply Forall_cons in HdA as [Hda HdA]. apply Forall_cons in HpA as [Hpa HpA].
    destruct (Z.ltb_spec (req_priority r) (req_priority a)) as [Hlt|Hge].
    + exists (r :: a :: A), B. split; [done|]. split; [done|].
      split; [constructor; [intros Heq; specialize (Hr Heq); lia|by constructor]|].
      split; [|done]. constructor; [lia|by constructor].
    + destruct (IH HdA HpA) as (A' & B' & -> & -> & H1 & H2 & H3).
      exists (a :: A'), B'. split; [done|]. split; [done|].
      split; [by constructor|]. split; [by constructor|done].
Qed.

Lemma rerase_rsort_from d A x B reqs :
  req_detour x = d →
  Forall (λ y, req_detour y ≠ d) A →
  Forall (λ y, req_priority y ≤ req_priority x) A →
  Forall (λ y, req_priority x ≤ req_priority y) B →
  Forall (λ r, req_detour r = d → req_priority x ≤ req_priority r) reqs →
  rerase d (rsort_from (A ++ x :: B) reqs) = Some (rsort_from (A ++ B) reqs).
Proof.
  intros Hx. revert A B.
  induction reqs as [|r reqs IH]; intros A B HdA HpA HpB Hreqs; simpl.
  - by apply rerase_found.
  - apply Forall_cons in Hreqs as [Hr Hreqs].
    destruct (rins_around d r A x B Hx HdA HpA HpB Hr)
      as (A' & B' & -> & -> & H1 & H2 & H3).
    by apply IH.
Qed.

Lemma rsort_from_elem x L reqs :
  x ∈ rsort_from L reqs → x ∈ L ∨ x ∈ reqs.
Proof.
  revert L. induction reqs as [|r reqs IH]; intros L; simpl; [by left|].
  intros Hx. destruct (IH _ Hx) as [Hin|Hin].
  - apply rins_elem in Hin as [->|Hin]; [right; by left|by left].
  - right. by right.
Qed.

(** Removing by detour after a sequence of installs gives the chain of the
    sequence without the request that is lowest among those with the
    detour. *)
Lemma rerase_rsort d r1 x r2 :
  req_detour x = d →
  Forall (λ r, req_detour r = d → req_priority x < req_priority r) r1 →
  Forall (λ r, req_detour r = d → req_priority x ≤ req_priority r) r2 →
  rerase d (rsort (r1 ++ x :: r2)) = Some (rsort (r1 ++ r2)).
Proof.
  intros Hx Hr1 Hr2. unfold rsort, rsort_from.
  rewrite !foldl_app. simpl. fold (rsort_from [] r1).
  destruct (rins_split x (rsort_from [] r1)) as (A & B & -> & HAB & HA & HB).
  { apply rsort_from_sorted. constructor. }
  rewrite HAB.
  apply (rerase_rsort_from d A x B r2 Hx); [|done| |done].
  - apply Forall_forall. intros y Hy Hyd.
    assert (y ∈ r1) as Hin.
    { destruct (rsort_from_elem y [] r1) as [Hin|Hin]; [|by apply elem_of_nil in Hin|done].
      rewrite HAB. apply elem_of_app. by left. }
    pose proof (proj1 (Forall_forall _ _) Hr1 y Hin Hyd) as Hlt.
    pose proof (proj1 (Forall_forall _ _) HA y Hy) as Hle. simpl in Hlt, Hle. lia.
  - eapply Forall_impl; [exact HB|]. simpl. intros; lia.
Qed.

(** *** Which request a removal undoes *)

Lemma lowest_priority_none d reqs :
  lowest_priority d reqs = None → Forall (λ r, req_detour r ≠ d) reqs.
Proof.
  induction reqs as [|r reqs IH]; simpl; [constructor|].
  destruct (Z.eqb_spec (req_detour r) d); [done|].
  intros H. constructor; [done|by apply IH].
Qed.

Lemma lowest_priority_spec d reqs p :
  lowest_priority d reqs = Some p →
  (∃ r, r ∈ reqs ∧ req_detour r = d ∧ req_priority r = p) ∧
  Forall (λ r, req_detour r = d → p ≤ req_priority r) reqs.
Proof.
  revert p. induction reqs as [|r reqs IH]; intros p; simpl; [done|].
  destruct (Z.eqb_spec (req_detour r) d) as [Hr|Hr].
  - destruct (lowest_priority d reqs) as [q|] eqn:Hq.
    + intros [= <-]. destruct (IH q eq_refl) as [(r' & Hin & Hd & Hp) Hall].
      split.
      * destruct (Z.le_gt_cases (req_priority r) q).
        -- exists r. rewrite Z.min_l by done. split; [by left|done].
        -- exists r'. rewrite Z.min_r by lia. split; [by right|done].
      * constructor; [intros; lia|].
        eapply Forall_impl; [exact Hall|]. simpl. intros x Hx Hxd.
        specialize (Hx Hxd). lia.
    + intros [= <-]. split; [exists r; split; [by left|done]|].
      constructor; [intros; lia|].
      eapply Forall_impl; [exact (lowest_priority_none d reqs Hq)|]. done.
  - intros Hp. destruct (IH p Hp) as [(r' & Hin & Hd & Hp') Hall].
    split; [exists r'; split; [by right|done]|]. by constructor.
Qed.

Lemma drop_first_split d p reqs :
  (∃ r, r ∈ reqs ∧ req_detour r = d ∧ req_priority r = p) →
  ∃ r1 x r2,
    reqs = r1 ++ x :: r2 ∧ drop_first d p reqs = r1 ++ r2 ∧
    req_detour x = d ∧ req_priority x = p ∧
    Forall (λ r, ¬ (req_detour r = d ∧ req_priority r = p)) r1.
Proof.
  induction reqs as [|r reqs IH]; intros (r' & Hin & Hd & Hp).
  - by apply elem_of_nil in Hin.
  - simpl.
    destruct (Z.eqb_spec (req_detour r) d) as [Hrd|Hrd];
      [destruct (Z.eqb_spec (req_priority r) p) as [Hrp|Hrp]|]; simpl.
    + by exists [], r, reqs.
    + apply elem_of_cons in Hin as [->|Hin]; [done|].
      destruct IH as (r1 & x & r2 & -> & -> & Hx1 & Hx2 & Hr1); [by exists r'|].
      exists (r :: r1), x, r2. repeat split; [done..|].
      constructor; [|done]. by intros [_ ?].
    + apply elem_of_cons in Hin as [->|Hin]; [done|].
      destruct IH as (r1 & x & r2 & -> & -> & Hx1 & Hx2 & Hr1); [by exists r'|].
      exists (r :: r1), x, r2. repeat split; [done..|].
      constructor; [|done]. by intros [? _].
Qed.

Lemma omit_split d reqs reqs' :
  omit d reqs = Some reqs' →
  ∃ r1 x r2,
    reqs = r1 ++ x :: r2 ∧ reqs' = r1 ++ r2 ∧ req_detour x = d ∧
    Forall (λ r, req_detour r = d → req_priority x < req_priority r) r1 ∧
    Forall (λ r, req_detour r = d → req_priority x ≤ req_priority r) r2.
Proof.
  unfold omit. destruct (lowest_priority d reqs) as [p|] eqn:Hp; [|done].
  simpl. intros [= <-].
  destruct (lowest_priority_spec d reqs p Hp) as [Hex Hall].
  destruct (drop_first_split d p reqs Hex) as (r1 & x & r2 & -> & -> & Hx & <- & Hr1).
  exists r1, x, r2. split; [done|]. split; [done|]. split; [done|].
  apply Forall_app in Hall as [Hall1 Hall2].
  apply Forall_cons in Hall2 as [_ Hall2]. split; [|done].
  apply Forall_forall. intros r Hr Hrd.
  pose proof (proj1 (Forall_forall _ _) Hall1 r Hr Hrd) as Hle.
  pose proof (proj1 (Forall_forall _ _) Hr1 r Hr) as Hne. simpl in Hle, Hne.
  destruct (decide (req_priority r = req_priority x)); [|lia].
  exfalso. by apply Hne.
Qed.

(** The converse reading: the request that is lowest among those with its
    detour is the one [omit] leaves out. *)
Lemma omit_lowest d r1 x r2 :
  req_detour x = d →
  Forall (λ r, req_detour r = d → req_priority x < req_priority r) r1 →
  Forall (λ r, req_detour r = d → req_priority x ≤ req_priority r) r2 →
  omit d (r1 ++ x :: r2) = Some (r1 ++ r2).
Proof.
  intros Hx Hr1 Hr2.
  destruct (omit d (r1 ++ x :: r2)) as [reqs'|] eqn:Hom.
  - destruct (omit_split _ _ _ Hom) as (q1 & y & q2 & Hsplit & -> & Hy & Hq1 & Hq2).
    f_equal.
    assert (∀ (a1 a2 b1 b2 : list Request) u v,
      a1 ++ u :: a2 = b1 ++ v :: b2 →
      req_detour u = d → req_detour v = d →
      Forall (λ r, req_detour r = d → req_priority u < req_priority r) a1 →
      Forall (λ r, req_detour r = d → req_priority u ≤ req_priority r) a2 →
      Forall (λ r, req_detour r = d → req_priority v < req_priority r) b1 →
      Forall (λ r, req_detour r = d → req_priority v ≤ req_priority r) b2 →
      b1 ++ b2 = a1 ++ a2) as Huniq.
    { clear. induction a1 as [|a a1 IH]; intros a2 [|b b1] b2 u v Heq Hu Hv Ha1 Ha2 Hb1 Hb2.
      - simpl in *. by injection Heq as _ <-.
      - simpl in Heq. injection Heq as -> ->.
        apply Forall_cons in Hb1 as [Hb _].
        apply Forall_app in Ha2 as [_ Ha2]. apply Forall_cons in Ha2 as [Hv' _].
        specialize (Hb Hu). specialize (Hv' Hv). lia.
      - simpl in Heq. injection Heq as -> <-.
        apply Forall_cons in Ha1 as [Ha _].
        apply Forall_app in Hb2 as [_ Hb2]. apply Forall_cons in Hb2 as [Hu' _].
        specialize (Ha Hv). specialize (Hu' Hu). lia.
      - simpl in Heq. injection Heq as -> Heq. simpl. f_equal.
        apply Forall_cons in Ha1 as [_ Ha1]. apply Forall_cons in Hb1 as [_ Hb1].
        by apply (IH a2 b1 b2 u v). }
    by apply (Huniq r1 r2 q1 q2 x y).
  - exfalso. unfold omit in Hom.
    destruct (lowest_priority d (r1 ++ x :: r2)) as [p|] eqn:Hp; [done|].
    apply lowest_priority_none in Hp. apply Forall_app in Hp as [_ Hp].
    by apply Forall_cons in Hp as [? _].
Qed.

Lemma rerase_omit d reqs reqs' :
  omit d reqs = Some reqs' → rerase d (rsort reqs) = Some (rsort reqs').
Proof.
  intros Hom.
  destruct (omit_split _ _ _ Hom) as (r1 & x & r2 & -> & -> & Hx & Hr1 & Hr2).
  by apply rerase_rsort.
Qed.

Lemma rerase_all_omit ds reqs reqs' :
  omit_all ds reqs = Some reqs' →
  rerase_all ds (rsort reqs) = Some (rsort reqs').
Proof.
  revert reqs. induction ds as [|d ds IH]; intros reqs; simpl.
  - by intros [= <-].
  - destruct (omit d reqs) as [reqs1|] eqn:Hom; [|done]. simpl.
    intros Hall. rewrite (rerase_omit _ _ _ Hom). simpl. by apply IH.
Qed.

Lemma omit_Forall (P : Request → Prop) d reqs reqs' :
  omit d reqs = Some reqs' → Forall P reqs → Forall P reqs'.
Proof.
  intros Hom.
  destruct (omit_split _ _ _ Hom) as (r1 & x & r2 & -> & -> & _).
  rewrite !Forall_app, Forall_cons. tauto.
Qed.

Lemma omit_all_Forall (P : Request → Prop) ds reqs reqs' :
  omit_all ds reqs = Some reqs' → Forall P reqs → Forall P reqs'.
Proof.
  revert reqs. induction ds as [|d ds IH]; intros reqs; simpl.
  - by intros [= <-].
  - destruct (omit d reqs) as [reqs1|] eqn:Hom; [|done]. simpl.
    intros Hall HP. apply (IH reqs1 Hall). by eapply omit_Forall.
Qed.

Lemma omit_length d reqs reqs' :
  omit d reqs = Some reqs' → length reqs = S (length reqs').
Proof.
  intros Hom.
  destruct (omit_split _ _ _ Hom) as (r1 & x & r2 & -> & -> & _).
  rewrite !length_app. simpl. lia.
Qed.

Lemma omit_all_length ds reqs reqs' :
  omit_all ds reqs = Some reqs' → (length reqs' ≤ length reqs)%nat.
Proof.
  revert reqs. induction ds as [|d ds IH]; intros reqs; simpl.
  - by intros [= <-].
  - destruct (omit d reqs) as [reqs1|] eqn:Hom; [|done]. simpl.
    intros Hall. apply IH in Hall. apply omit_length in Hom. lia.
Qed.

Lemma rerase_Forall (P : Request → Prop) d L L' :
  rerase d L = Some L' → Forall P L → Forall P L'.
Proof.
  revert L'. induction L as [|y L IH]; intros L'; simpl; [done|].
  destruct (req_detour y =? d).
  - intros [= <-] H. by apply Forall_cons in H as [_ ?].
  - destruct (rerase d L) as [L1|]; [|done]. simpl. intros [= <-] H.
    apply Forall_cons in H as [? ?]. constructor; [done|]. by apply IH.
Qed.

Lemma rerase_all_nil ds L' : rerase_all ds [] = Some L' → L' = [].
Proof. destruct ds; simpl; [by intros [= <-]|done]. Qed.

(** *** The operations on a chain described by its requests *)

Section Sequences.

Context (E : Engine) (t O : Z).
Hypothesis Hstable : origin_stable E t O.

Lemma chain_at_first r b (w : World E) :
  registry w !! t = None → req_slot r ≠ nullptr →
  ∃ w', hook E t (req_detour r) (req_slot r) (req_priority r) b w = Some (0, w') ∧
        chain_at w' t O [r] 1.
Proof.
  intros Hreg Hs. rewrite (hook_fresh E _ _ _ _ _ _ Hreg). cbv zeta.
  destruct (Hstable (req_detour r) nullptr (engine (initOnce E w))) as [Hstub Horig].
  destruct (Z.eqb_spec (install_stub E t (req_detour r) nullptr
                          (engine (initOnce E w))) nullptr); [done|].
  rewrite updateCallList_valid by (repeat constructor; done). simpl.
  eexists. split; [reflexivity|].
  eexists _, (cells (heap w)). simpl. rewrite lookup_insert_eq.
  split; [reflexivity|]. simpl. rewrite Horig.
  split; [by destruct r|]. split; [done|]. split; [done|]. split; [done|].
  split; [repeat constructor; simpl; lia|done].
Qed.

Lemma chain_at_hook r b (w : World E) L n :
  chain_at w t O L n → n < INT_MAX →
  Forall (λ q, req_slot q ≠ nullptr) L → req_slot r ≠ nullptr →
  ∃ w', hook E t (req_detour r) (req_slot r) (req_priority r) b w = Some (0, w') ∧
        chain_at w' t O (rins r L) (n + 1).
Proof.
  intros (d & c0 & Hreg & HL & HO & Hst & Hn & Hb & Hc) Hlt Hv Hs.
  rewrite (hook_existing E _ _ _ _ _ _ d Hreg). rewrite Hn.
  destruct (Z.ltb_spec n INT_MAX); [|lia].
  set (x := mkHookElement (req_detour r) (req_slot r) (req_priority r) (n + 1)).
  assert (strip <$> set_insert x (hooks d) = rins r L) as Hstrip.
  { rewrite strip_set_insert, HL; [by destruct r|].
    eapply Forall_impl; [exact Hb|]. simpl. intros; lia. }
  rewrite updateCallList_valid; simpl.
  2:{ apply set_insert_Forall; [done|]. apply strip_valid. by rewrite HL. }
  eexists. split; [reflexivity|].
  eexists _, (cells (heap w)). simpl. rewrite lookup_insert_eq.
  split; [reflexivity|]. simpl.
  destruct (Hstable (next_of (origin d) (set_insert x (hooks d))) (origin d)
              (engine (initOnce E w))) as [_ ->].
  rewrite HO. split; [done|]. split; [done|]. split; [done|]. split; [done|].
  split; [|done].
  apply set_insert_Forall; simpl; [lia|].
  eapply Forall_impl; [exact Hb|]. simpl. intros; lia.
Qed.

Lemma chain_at_unhook dt b (w : World E) L L' n :
  chain_at w t O L n → t ≠ nullptr →
  rerase dt L = Some L' → L' ≠ [] →
  Forall (λ q, req_slot q ≠ nullptr) L →
  ∃ w', unhook E t dt b w = Some (true, w') ∧ chain_at w' t O L' n.
Proof.
  intros (d & c0 & Hreg & HL & HO & Hst & Hn & Hb & Hc) Ht Her Hne Hv.
  rewrite <- HL, strip_erase_first in Her.
  destruct (erase_first dt (hooks d)) as [rest|] eqn:Herase; [|done].
  simpl in Her. injection Her as Hrest.
  rewrite (unhook_found E t dt b w d rest Ht Hreg Herase).
  rewrite updateCallList_valid; simpl.
  2:{ eapply sublist_Forall; [by eapply erase_first_sublist|].
      apply strip_valid. by rewrite HL. }
  destruct rest as [|y rest]; [by rewrite <- Hrest in Hne|].
  eexists. split; [reflexivity|].
  eexists _, (cells (heap w)). simpl. rewrite lookup_insert_eq.
  split; [reflexivity|]. simpl.
  destruct (Hstable (detour y) (origin d) (engine w)) as [_ ->].
  rewrite HO. split; [done|]. split; [done|]. split; [done|]. split; [done|].
  split; [|done].
  eapply (sublist_Forall _ (y :: rest)); [by eapply erase_first_sublist|done].
Qed.

Lemma run_app ops1 ops2 (w : World E) :
  run E (ops1 ++ ops2) w = w' ← run E ops1 w; run E ops2 w'.
Proof.
  revert w. induction ops1 as [|o ops1 IH]; intros w; simpl; [done|].
  destruct (exec E o w) as [w1|]; simpl; [apply IH|done].
Qed.

Lemma run_installs reqs (w : World E) L n :
  chain_at w t O L n → n + Z.of_nat (length reqs) ≤ INT_MAX →
  Forall (λ q, req_slot q ≠ nullptr) L →
  Forall (λ q, req_slot q ≠ nullptr) reqs →
  ∃ w', run E (installs t reqs) w = Some w' ∧
        chain_at w' t O (rsort_from L reqs) (n + Z.of_nat (length reqs)).
Proof.
  revert w L n. induction reqs as [|r reqs IH]; intros w L n Hc Hn HvL Hv.
  - exists w. split; [done|]. simpl. by rewrite Z.add_0_r.
  - apply Forall_cons in Hv as [Hr Hv]. simpl length in Hn.
    destruct (chain_at_hook r true w L n Hc) as (w1 & Hhook & Hc1); [lia|done|done|].
    destruct (IH w1 (rins r L) (n + 1) Hc1) as (w' & Hrun & Hc');
      [lia|by apply rins_Forall|done|].
    exists w'. split.
    + simpl. rewrite Hhook. simpl. exact Hrun.
    + simpl length. by replace (n + Z.of_nat (S (length reqs)))
        with (n + 1 + Z.of_nat (length reqs)) by lia.
Qed.

Lemma run_installs_fresh reqs (w : World E) :
  registry w !! t = None → reqs ≠ [] →
  Z.of_nat (length reqs) ≤ INT_MAX →
  Forall (λ q, req_slot q ≠ nullptr) reqs →
  ∃ w', run E (installs t reqs) w = Some w' ∧
        chain_at w' t O (rsort reqs) (Z.of_nat (length reqs)).
Proof.
  intros Hreg Hne Hn Hv. destruct reqs as [|r reqs]; [done|].
  apply Forall_cons in Hv as [Hr Hv]. simpl length in Hn.
  destruct (chain_at_first r true w Hreg Hr) as (w1 & Hhook & Hc1).
  destruct (run_installs reqs w1 [r] 1 Hc1) as (w' & Hrun & Hc');
    [lia|by constructor|done|].
  exists w'. split.
  - simpl. rewrite Hhook. simpl. exact Hrun.
  - simpl length. by replace (Z.of_nat (S (length reqs)))
      with (1 + Z.of_nat (length reqs)) by lia.
Qed.

Lemma run_removals ds (w : World E) L L' n :
  chain_at w t O L n → t ≠ nullptr →
  rerase_all ds L = Some L' → L' ≠ [] →
  Forall (λ q, req_slot q ≠ nullptr) L →
  ∃ w', run E (removals t ds) w = Some w' ∧ chain_at w' t O L' n.
Proof.
  intros Hc Ht. revert w L Hc. induction ds as [|d ds IH]; intros w L Hc Hall Hne Hv.
  - simpl in Hall. injection Hall as <-. by exists w.
  - simpl in Hall. destruct (rerase d L) as [L1|] eqn:Her; [|done]. simpl in Hall.
    assert (L1 ≠ []) as Hne1.
    { intros ->. by apply rerase_all_nil in Hall. }
    destruct (chain_at_unhook d true w L L1 n Hc Ht Her Hne1 Hv) as (w1 & Hun & Hc1).
    destruct (IH w1 L1 Hc1 Hall Hne) as (w' & Hrun & Hc').
    { by eapply rerase_Forall. }
    exists w'. split; [|done]. simpl. rewrite Hun. simpl. exact Hrun.
Qed.

Lemma chain_at_unhook_last dt b (w : World E) L n :
  chain_at w t O L n → t ≠ nullptr → rerase dt L = Some [] →
  ∃ w', unhook E t dt b w = Some (true, w') ∧ registry w' !! t = None.
Proof.
  intros (d & c0 & Hreg & HL & HO & Hst & Hn & Hb & Hc) Ht Her.
  rewrite <- HL, strip_erase_first in Her.
  destruct (erase_first dt (hooks d)) as [rest|] eqn:Herase; [|done].
  simpl in Her. injection Her as Hrest. apply fmap_nil_inv in Hrest as ->.
  rewrite (unhook_found E t dt b w d [] Ht Hreg Herase).
  rewrite updateCallList_empty by done. simpl.
  eexists. split; [reflexivity|]. simpl. apply lookup_delete_eq.
Qed.

Lemma run_removals_all ds (w : World E) L n :
  chain_at w t O L n → t ≠ nullptr → L ≠ [] →
  Forall (λ q, req_slot q ≠ nullptr) L →
  rerase_all ds L = Some [] →
  ∃ w', run E (removals t ds) w = Some w' ∧ registry w' !! t = None.
Proof.
  intros Hc Ht. revert w L Hc. induction ds as [|d ds IH]; intros w L Hc Hne Hv Hall.
  - simpl in Hall. by injection Hall as ->.
  - simpl in Hall. destruct (rerase d L) as [L1|] eqn:Her; [|done]. simpl in Hall.
    destruct L1 as [|y L1].
    + destruct (chain_at_unhook_last d true w L n Hc Ht Her) as (w1 & Hun & Hnone).
      destruct ds as [|d' ds]; [|done].
      exists w1. split; [|done]. simpl. by rewrite Hun.
    + destruct (chain_at_unhook d true w L (y :: L1) n Hc Ht Her) as (w1 & Hun & Hc1);
        [done|done|].
      destruct (IH w1 (y :: L1) Hc1) as (w' & Hrun & Hnone); [done| |done|].
      { by eapply rerase_Forall. }
      exists w'. split; [|done]. simpl. rewrite Hun. simpl. exact Hrun.
Qed.

(** Two states whose chains for [t] hold the same requests are wired
    alike. *)
Lemma chain_at_agree (wA wB : World E) L nA nB :
  chain_at wA t O L nA → chain_at wB t O L nB →
  ∃ dA dB,
    registry wA !! t = Some dA ∧ registry wB !! t = Some dB ∧
    start dA = start dB ∧ origin dA = origin dB ∧
    strip <$> hooks dA = strip <$> hooks dB ∧
    strip <$> hooks dB = L ∧
    (∀ x, x ∈ hooks dB →
       cells (heap wA) !! originalFunc x = cells (heap wB) !! originalFunc x).
Proof.
  intros (dA & cA & HregA & HLA & HOA & HstA & _ & _ & HcA)
         (dB & cB & HregB & HLB & HOB & HstB & _ & _ & HcB).
  exists dA, dB. split; [done|]. split; [done|].
  assert (strip <$> hooks dA = strip <$> hooks dB) as Hs by congruence.
  split; [rewrite HstA, HstB; by apply strip_next_of|].
  split; [congruence|]. split; [done|]. split; [done|].
  intros x Hx. rewrite HcA, HcB, (strip_full_writes O _ _ Hs).
  apply foldl_put_agree. apply full_writes_slots.
  apply list_elem_of_fmap. by exists x.
Qed.

End Sequences.

Lemma steady_engine_stable t : origin_stable steady_engine t (t + 8).
Proof.
  intros n o s. split; [|done]. unfold install_stub, nullptr. simpl. lia.
Qed.

Lemma rsort_nonempty reqs : reqs ≠ [] → rsort reqs ≠ [].
Proof.
  destruct reqs as [|r reqs]; [done|]. intros _.
  unfold rsort. simpl. by apply rsort_from_nonempty.
Qed.

(** C9, as the code has it.  Let the engine always install on the target
    and always report the same pre-hook entry point, let the target have no
    chain, and let a sequence of installs (no null slot pointer, at most
    [INT_MAX] of them) be followed by removals by detour, in any number and
    order.  Each removal undoes the request that is
    lowest, in (priority, registration order), among those with its detour
    ([omit]).  The state reached has, for the target, the same [start], the
    same origin, the same entries in the same order and the same content in
    every slot of these entries as the state reached by installing only the
    requests that were not undone; when every request was undone, the
    target has no chain, as before the installs.  The request [omit] leaves
    out is the installed entry that is lowest among those with its
    detour. *)
Theorem removals_undo_installs (E : Engine) (t O : Z) :
  origin_stable E t O → t ≠ nullptr →
  (∀ reqs ds reqs' (w0 : World E),
     registry w0 !! t = None →
     Forall (λ q, req_slot q ≠ nullptr) reqs →
     Z.of_nat (length reqs) ≤ INT_MAX →
     omit_all ds reqs = Some reqs' → reqs' ≠ [] →
     ∃ wA wB dA dB,
       run E (installs t reqs ++ removals t ds) w0 = Some wA ∧
       run E (installs t reqs') w0 = Some wB ∧
       registry wA !! t = Some dA ∧ registry wB !! t = Some dB ∧
       start dA = start dB ∧ origin dA = origin dB ∧
       strip <$> hooks dA = strip <$> hooks dB ∧
       strip <$> hooks dB = rsort reqs' ∧
       (∀ x, x ∈ hooks dB →
          cells (heap wA) !! originalFunc x = cells (heap wB) !! originalFunc x)) ∧
  (∀ reqs ds (w0 : World E),
     registry w0 !! t = None →
     Forall (λ q, req_slot q ≠ nullptr) reqs →
     Z.of_nat (length reqs) ≤ INT_MAX →
     omit_all ds reqs = Some [] →
     ∃ wA, run E (installs t reqs ++ removals t ds) w0 = Some wA ∧
           registry wA !! t = None ∧
           run E (installs t []) w0 = Some w0) ∧
  (∀ d r1 x r2,
     req_detour x = d →
     Forall (λ r, req_detour r = d → req_priority x < req_priority r) r1 →
     Forall (λ r, req_detour r = d → req_priority x ≤ req_priority r) r2 →
     omit d (r1 ++ x :: r2) = Some (r1 ++ r2)).
Proof.
  intros Hstable Ht. split; [|split; [|apply omit_lowest]].
  2:{ intros reqs ds w0 Hreg Hv Hn Hom.
      destruct reqs as [|r reqs].
      { destruct ds as [|d ds]; [|done]. by exists w0. }
      destruct (run_installs_fresh E t O Hstable (r :: reqs) w0 Hreg) as (w1 & Hrun1 & Hc1);
        [done|done|done|].
      destruct (run_removals_all E t O Hstable ds w1 (rsort (r :: reqs))
                  (Z.of_nat (length (r :: reqs))) Hc1 Ht) as (wA & HrunA & Hnone).
      { by apply rsort_nonempty. }
      { apply rsort_from_Forall; [constructor|done]. }
      { by apply (rerase_all_omit ds (r :: reqs) []). }
      exists wA. split; [|done]. rewrite run_app, Hrun1. exact HrunA. }
  intros reqs ds reqs' w0 Hreg Hv Hn Hom Hne.
  pose proof (omit_all_length _ _ _ Hom) as Hlen.
  assert (reqs ≠ []) as Hne0.
  { intros ->. destruct reqs'; [done|]. simpl in Hlen. lia. }
  destruct (run_installs_fresh E t O Hstable reqs w0 Hreg Hne0 Hn Hv)
    as (w1 & Hrun1 & Hc1).
  destruct (run_removals E t O Hstable ds w1 (rsort reqs) (rsort reqs')
              (Z.of_nat (length reqs)) Hc1 Ht) as (wA & HrunA & HcA).
  { by apply rerase_all_omit. }
  { by apply rsort_nonempty. }
  { apply rsort_from_Forall; [constructor|done]. }
  destruct (run_installs_fresh E t O Hstable reqs' w0 Hreg Hne) as (wB & HrunB & HcB).
  { lia. }
  { by eapply omit_all_Forall. }
  destruct (chain_at_agree E t O wA wB _ _ _ HcA HcB)
    as (dA & dB & HregA & HregB & Hst & Ho & Hs & HL & Hcells).
  exists wA, wB, dA, dB.
  split; [rewrite run_app, Hrun1; exact HrunA|]. split; [exact HrunB|].
  repeat (split; [done|]). done.
Qed.

Lemma removals_undo_installs_witness :
  ∃ wA wB dA dB,
    run steady_engine (installs T1 [R1; R2; R3; R1_again] ++ removals T1 [D2; D1])
      (boot steady_engine heap0 0%nat) = Some wA ∧
    run steady_engine (installs T1 [R3; R1_again]) (boot steady_engine heap0 0%nat)
    = Some wB ∧
    registry wA !! T1 = Some dA ∧ registry wB !! T1 = Some dB ∧
    start dA = start dB ∧ origin dA = origin dB ∧
    strip <$> hooks dA = strip <$> hooks dB ∧
    strip <$> hooks dB = [R3; R1_again] ∧
    (∀ x, x ∈ hooks dB →
       cells (heap wA) !! originalFunc x = cells (heap wB) !! originalFunc x).
Proof.
  apply (proj1 (removals_undo_installs steady_engine T1 (T1 + 8)
                  (steady_engine_stable T1) ltac:(done))
           [R1; R2; R3; R1_again] [D2; D1] [R3; R1_again]
           (boot steady_engine heap0 0%nat)).
  - reflexivity.
  - repeat constructor; done.
  - by vm_compute.
  - reflexivity.
  - done.
Defined.

(** C9 as stated fails in two ways.  On [chaining_engine], installing [R1]
    and [R2] and removing [R2] leaves the slot of [R1] with another content
    than installing [R1] alone.  On [steady_engine], after installing [R1]
    and then [R1_again] (the same detour), the removal by that detour
    cannot undo the second install: it leaves the entry of [R1_again],
    where the sequence without [R1_again] leaves the entry of [R1]. *)
Lemma removal_is_not_undo :
  (∃ wA wB,
     run chaining_engine (installs T1 [R1; R2] ++ removals T1 [D2])
       (boot chaining_engine heap0 ∅) = Some wA ∧
     run chaining_engine (installs T1 [R1]) (boot chaining_engine heap0 ∅)
     = Some wB ∧
     cells (heap wA) !! S1 ≠ cells (heap wB) !! S1) ∧
  (∃ wA wB dA dB,
     run steady_engine (installs T1 [R1; R1_again] ++ removals T1 [D1])
       (boot steady_engine heap0 0%nat) = Some wA ∧
     run steady_engine (installs T1 [R1]) (boot steady_engine heap0 0%nat)
     = Some wB ∧
     registry wA !! T1 = Some dA ∧ registry wB !! T1 = Some dB ∧
     strip <$> hooks dA = [R1_again] ∧ strip <$> hooks dB = [R1] ∧
     strip <$> hooks dA ≠ strip <$> hooks dB).
Proof.
  split.
  - do 2 eexists. split; [reflexivity|]. split; [reflexivity|]. by vm_compute.
  - do 4 eexists. split; [reflexivity|]. split; [reflexivity|].
    split; [reflexivity|]. split; [reflexivity|].
    split; [reflexivity|]. split; [reflexivity|]. by vm_compute.
Qed.

(** * Further properties of the code *)

(** ** The paths of [hook] and [unhook] *)

Section Paths.

Context (E : Engine).

Lemma init_initOnce (w : World E) :
  init (initOnce E w)
  = init w || ((shadowhook_init E SHADOWHOOK_MODE_SHARED false (engine w)).1 =? 0).
Proof.
  unfold initOnce. destruct (init w) eqn:Hi; [by rewrite Hi|].
  simpl. by destruct (shadowhook_init _ _ _ _).
Qed.

Lemma calls_initOnce (w : World E) :
  calls (initOnce E w) = calls w ++ (if init w then [] else [CallInit]).
Proof.
  unfold initOnce. destruct (init w); [by rewrite (right_id_L [] (++))|].
  by destruct (shadowhook_init _ _ _ _).
Qed.

(** The three ways a call of [hook] ends. *)
Lemma hook_inv t d s p b (w : World E) r w' :
  hook E t d s p b w = Some (r, w') →
  (∃ hd hd1,
     registry w !! t = Some hd ∧ hookId hd < INT_MAX ∧
     updateCallList
       (set_hooks (set_insert (mkHookElement d s p (hookId hd + 1)) (hooks hd))
          (set_hookId (hookId hd + 1) hd)) (heap w) = Some (hd1, heap w') ∧
     r = 0 ∧
     registry w'
     = <[t := set_origin
                (install_orig E t (start hd1) (origin hd1) (engine (initOnce E w)))
                hd1]> (registry w) ∧
     init w' = init (initOnce E w) ∧
     calls w' = calls (initOnce E w) ++ [CallHook t (start hd1)]) ∨
  (registry w !! t = None ∧
   install_stub E t d nullptr (engine (initOnce E w)) = nullptr ∧
   r = -1 ∧ registry w' = registry w ∧ heap w' = heap w ∧
   init w' = init (initOnce E w) ∧
   calls w' = calls (initOnce E w) ++ [CallHook t d]) ∨
  (∃ hd1,
     registry w !! t = None ∧
     install_stub E t d nullptr (engine (initOnce E w)) ≠ nullptr ∧
     updateCallList
       (mkHookData t (install_orig E t d nullptr (engine (initOnce E w))) d
          (install_stub E t d nullptr (engine (initOnce E w))) 1
          [mkHookElement d s p 1]) (heap w) = Some (hd1, heap w') ∧
     r = 0 ∧ registry w' = <[t := hd1]> (registry w) ∧
     init w' = init (initOnce E w) ∧
     calls w' = calls (initOnce E w) ++ [CallHook t d]).
Proof.
  intros Hhook. destruct (registry w !! t) as [hd|] eqn:Hreg.
  - left. rewrite (hook_existing E t d s p b w hd Hreg) in Hhook.
    destruct (Z.ltb_spec (hookId hd) INT_MAX); [|done].
    destruct (updateCallList _ _) as [[hd1 h1]|] eqn:Hu; [|done].
    simpl in Hhook. injection Hhook as <- <-. by exists hd, hd1.
  - right. rewrite (hook_fresh E t d s p b w Hreg) in Hhook. cbv zeta in Hhook.
    destruct (Z.eqb_spec (install_stub E t d nullptr (engine (initOnce E w))) nullptr).
    + left. by injection Hhook as <- <-.
    + right. destruct (updateCallList _ _) as [[hd1 h1]|] eqn:Hu; [|done].
      simpl in Hhook. injection Hhook as <- <-. by exists hd1.
Qed.

(** The ways a call of [unhook] ends. *)
Lemma unhook_inv t d b (w : World E) r w' :
  unhook E t d b w = Some (r, w') →
  (r = false ∧ w' = w) ∨
  (∃ hd rest hd1,
     r = true ∧ t ≠ nullptr ∧ registry w !! t = Some hd ∧
     erase_first d (hooks hd) = Some rest ∧
     updateCallList (set_hooks rest hd) (heap w) = Some (hd1, heap w') ∧
     init w' = init w ∧
     ((rest = [] ∧ registry w' = delete t (registry w) ∧
       calls w' = calls w ++ [CallUnhook (stub hd)]) ∨
      (rest ≠ [] ∧
       registry w'
       = <[t := set_origin (install_orig E t (start hd1) (origin hd1) (engine w))
                   hd1]> (registry w) ∧
       calls w' = calls w ++ [CallHook t (start hd1)]))).
Proof.
  intros Hun.
  destruct (decide (t = nullptr)) as [Ht|Ht].
  { rewrite unhook_not_found in Hun by (by left). injection Hun as <- <-. by left. }
  destruct (registry w !! t) as [hd|] eqn:Hreg.
  2:{ rewrite unhook_not_found in Hun by (right; by left).
      injection Hun as <- <-. by left. }
  destruct (erase_first d (hooks hd)) as [rest|] eqn:Her.
  2:{ rewrite unhook_not_found in Hun by (right; right; eauto).
      injection Hun as <- <-. by left. }
  right. rewrite (unhook_found E t d b w hd rest Ht Hreg Her) in Hun.
  destruct (updateCallList _ _) as [[hd1 h1]|] eqn:Hu; [|done].
  destruct (updateCallList_frame _ _ _ _ Hu) as [st ->]. simpl in Hun.
  exists hd, rest, (set_start st (set_hooks rest hd)).
  destruct rest as [|x rest]; injection Hun as <- <-; simpl.
  - repeat (split; [done|]). left. done.
  - repeat (split; [done|]). right. done.
Qed.

End Paths.

(** ** The order of the entries *)

(** X1: [HookElement::operator<] is a strict total order on the pairs
    (priority, id): irreflexive, transitive, asymmetric, and two elements
    neither of which is less than the other have the same priority and the
    same id, whatever their detours and slots. *)
Theorem elem_lt_strict_order :
  (∀ a, elem_lt a a = false) ∧
  (∀ a b c, elem_lt a b = true → elem_lt b c = true → elem_lt a c = true) ∧
  (∀ a b, elem_lt a b = true → elem_lt b a = false) ∧
  (∀ a b, elem_lt a b = false → elem_lt b a = false →
          priority a = priority b ∧ id a = id b) ∧
  (∀ a b, priority a = priority b → id a = id b →
          elem_lt a b = false ∧ elem_lt b a = false).
Proof.
  split; [apply elem_lt_irrefl|]. split; [apply elem_lt_trans|].
  assert (∀ a b, elem_lt a b = false ↔
                 ¬ (priority a < priority b ∨
                    (priority a = priority b ∧ id a < id b))) as Hf.
  { intros a b. rewrite <- elem_lt_spec. by destruct (elem_lt a b). }
  split; [|split].
  - intros a b Hab. apply Hf. apply elem_lt_spec in Hab. lia.
  - intros a b Hab Hba. apply Hf in Hab, Hba. lia.
  - intros a b Hp Hi. split; apply Hf; lia.
Qed.

Lemma elem_lt_strict_order_witness :
  elem_lt (mkHookElement D1 S1 100 2) (mkHookElement D3 S3 200 3) = true ∧
  elem_lt (mkHookElement D3 S3 200 3) (mkHookElement D1 S1 100 2) = false ∧
  priority (mkHookElement D1 S1 200 1) = priority (mkHookElement D2 S2 200 1).
Proof.
  destruct elem_lt_strict_order as (_ & Htrans & Hasym & Heq & _).
  assert (elem_lt (mkHookElement D1 S1 100 2) (mkHookElement D3 S3 200 3) = true)
    as H13.
  { apply (Htrans _ (mkHookElement D2 S2 200 1)); reflexivity. }
  split; [exact H13|]. split; [by apply Hasym|].
  apply (Heq (mkHookElement D1 S1 200 1) (mkHookElement D2 S2 200 1)); reflexivity.
Defined.

(** ** unhookAll *)

Lemma unhookAll_fold (E : Engine) (l : list (Z * HookData)) e cs :
  (foldl (unhookAll_step E) (e, cs) l).2
  = cs ++ ((λ kv, CallUnhook (stub kv.2)) <$> l).
Proof.
  revert e cs. induction l as [|kv l IH]; intros e cs; simpl.
  - by rewrite (right_id_L [] (++)).
  - unfold unhookAll_step at 2. simpl.
    destruct (shadowhook_unhook E (stub kv.2) e) as [r e'].
    rewrite IH. by rewrite <- (assoc_L (++)).
Qed.

Lemma unhookAll_calls (E : Engine) (w : World E) :
  calls (unhookAll E w)
  = calls w ++ ((λ kv, CallUnhook (stub kv.2)) <$> map_to_list (registry w)).
Proof.
  unfold unhookAll.
  pose proof (unhookAll_fold E (map_to_list (registry w)) (engine w) (calls w)) as Hf.
  by destruct (foldl _ _ _).
Qed.

Lemma init_unhookAll (E : Engine) (w : World E) : init (unhookAll E w) = init w.
Proof. unfold unhookAll. by destruct (foldl _ _ _). Qed.



(** ** Calls of the engine made by [hook] *)

Lemma hook_calls (E : Engine) t d s p b (w : World E) r w' :
  hook E t d s p b w = Some (r, w') →
  ∃ a,
    calls w' = calls w ++ (if init w then [] else [CallInit]) ++ [CallHook t a] ∧
    (registry w !! t = None → a = d) ∧
    init w'
    = init w || ((shadowhook_init E SHADOWHOOK_MODE_SHARED false (engine w)).1 =? 0).
Proof.
  intros Hhook. rewrite <- init_initOnce.
  destruct (hook_inv E _ _ _ _ _ _ _ _ Hhook)
    as [(hd & hd1 & Hreg & _ & _ & _ & _ & Hi & Hc)
       |[(Hreg & _ & _ & _ & _ & Hi & Hc)|(hd1 & Hreg & _ & _ & _ & _ & Hi & Hc)]];
    rewrite calls_initOnce, <- (assoc_L (++)) in Hc; eexists;
    (split; [exact Hc|]); (split; [|done]); by rewrite ?Hreg.
Qed.

(** X3: every call of [hook] that returns, on whichever path and with
    whichever result, calls the engine's install primitive exactly once, as
    its last engine call, for the target; before it, it calls
    [shadowhook_init] exactly when the [init] flag is not set, and the flag
    is set afterwards exactly when it was set or that call returned 0.  A
    failed [shadowhook_init] is not reported and does not keep [hook] from
    installing. *)
Theorem hook_engine_calls (E : Engine) t d s p b (w : World E) r w' :
  hook E t d s p b w = Some (r, w') →
  ∃ a,
    calls w' = calls w ++ (if init w then [] else [CallInit]) ++ [CallHook t a] ∧
    (registry w !! t = None → a = d) ∧
    init w'
    = init w || ((shadowhook_init E SHADOWHOOK_MODE_SHARED false (engine w)).1 =? 0).
Proof. apply hook_calls. Qed.

Lemma hook_engine_calls_witness :
  ∃ w', hook grudging_engine T1 D2 S2 100 true grudging_world = Some (0, w') ∧
        calls w' = [CallInit; CallHook T1 D1; CallHook T1 D2] ∧ init w' = true.
Proof.
  destruct (hook_engine_calls grudging_engine T1 D2 S2 100 true grudging_world 0
              (default grudging_world
                 (snd <$> hook grudging_engine T1 D2 S2 100 true grudging_world)))
    as (a & Hc & _ & Hi); [reflexivity|].
  eexists. split; [reflexivity|]. split; [reflexivity|exact Hi].
Defined.

Lemma filter_init_snoc (cs : list EngineCall) c :
  is_init c = false →
  filter (λ x, is_init x = true) (cs ++ [c]) = filter (λ x, is_init x = true) cs.
Proof.
  intros Hc. rewrite filter_app, filter_cons_False, filter_nil by congruence.
  by rewrite (right_id_L [] (++)).
Qed.

Lemma exec_keeps_init (E : Engine) o (w w' : World E) :
  init w = true → exec E o w = Some w' →
  init w' = true ∧
  filter (λ x, is_init x = true) (calls w')
  = filter (λ x, is_init x = true) (calls w).
Proof.
  intros Hi Hex. destruct o as [t d s p b|t d b|]; simpl in Hex.
  - destruct (hook E t d s p b w) as [[r w1]|] eqn:Hhook; [|done].
    injection Hex as <-.
    destruct (hook_calls E _ _ _ _ _ _ _ _ Hhook) as (a & Hc & _ & Hi').
    rewrite Hi in Hc, Hi'. simpl in Hc. split; [done|].
    rewrite Hc. by apply filter_init_snoc.
  - destruct (unhook E t d b w) as [[r w1]|] eqn:Hun; [|done].
    injection Hex as <-.
    destruct (unhook_inv E _ _ _ _ _ _ Hun)
      as [[_ ->]|(hd & rest & hd1 & _ & _ & _ & _ & _ & Hi' & Hc)]; [done|].
    split; [congruence|].
    destruct Hc as [(_ & _ & ->)|(_ & _ & ->)]; by apply filter_init_snoc.
  - injection Hex as <-.
    pose proof (init_unhookAll E w) as Hi'.
    split; [congruence|]. rewrite unhookAll_calls, filter_app.
    replace (filter _ (_ <$> _)) with (@nil EngineCall);
      [by rewrite (right_id_L [] (++))|].
    symmetry. induction (map_to_list (registry w)) as [|kv l IH]; [done|].
    rewrite fmap_cons, filter_cons_False by done. exact IH.
Qed.

Lemma run_keeps_init (E : Engine) ops (w w' : World E) :
  init w = true → run E ops w = Some w' →
  init w' = true ∧
  filter (λ x, is_init x = true) (calls w')
  = filter (λ x, is_init x = true) (calls w).
Proof.
  revert w. induction ops as [|o ops IH]; intros w Hi Hrun; simpl in Hrun.
  - by injection Hrun as <-.
  - destruct (exec E o w) as [w1|] eqn:Hex; [|done]. simpl in Hrun.
    destruct (exec_keeps_init E o w w1 Hi Hex) as [Hi1 Hc1].
    destruct (IH w1 Hi1 Hrun) as [Hi' Hc']. split; [done|congruence].
Qed.

(** X4: once a call of [shadowhook_init] has returned 0 (the [init] flag is
    set), no operation calls it again and the flag stays set, whatever is
    installed, removed or torn down afterwards: [unhookAll] does not reset
    it. *)
Theorem engine_initialised_once (E : Engine) ops (w w' : World E) :
  init w = true → run E ops w = Some w' →
  init w' = true ∧
  filter (λ x, is_init x = true) (calls w')
  = filter (λ x, is_init x = true) (calls w).
Proof. apply run_keeps_init. Qed.

Lemma engine_initialised_once_witness :
  ∃ w', run steady_engine
          [OpUnhookAll; OpHook T1 D2 S2 100 true; OpUnhook T1 D2 true] sample_world
        = Some w' ∧
        init w' = true ∧
        filter (λ x, is_init x = true) (calls w') = [CallInit].
Proof.
  destruct (engine_initialised_once steady_engine
              [OpUnhookAll; OpHook T1 D2 S2 100 true; OpUnhook T1 D2 true]
              sample_world
              (default sample_world
                 (run steady_engine
                    [OpUnhookAll; OpHook T1 D2 S2 100 true; OpUnhook T1 D2 true]
                    sample_world)))
    as [Hi Hc]; [reflexivity|reflexivity|].
  eexists. split; [reflexivity|]. split; [exact Hi|exact Hc].
Defined.

(** ** Where an install puts its entry *)

Lemma set_insert_split x l :
  StronglySorted elem_ltP l → Forall (λ y, id y < id x) l →
  ∃ A B, l = A ++ B ∧ set_insert x l = A ++ x :: B ∧
         Forall (λ y, priority y ≤ priority x) A ∧
         Forall (λ y, priority x < priority y) B.
Proof.
  induction 1 as [|y l Hs IH Hy]; intros Hid.
  - by exists [], [].
  - apply Forall_cons in Hid as [Hyid Hid]. simpl.
    destruct (Z.ltb_spec (priority x) (priority y)) as [Hlt|Hge].
    + assert (elem_lt x y = true) as -> by (apply elem_lt_spec; lia).
      exists [], (y :: l). repeat split; [constructor|].
      constructor; [done|].
      eapply Forall_impl; [exact Hy|]. intros z Hz. apply elem_lt_spec in Hz. lia.
    + assert (elem_lt x y = false) as ->.
      { destruct (elem_lt x y) eqn:Hxy; [|done]. apply elem_lt_spec in Hxy. lia. }
      assert (elem_lt y x = true) as -> by (apply elem_lt_spec; lia).
      destruct (IH Hid) as (A & B & -> & -> & HA & HB).
      exists (y :: A), B. repeat split; [|done]. by constructor.
Qed.

Lemma hook_existing_places (E : Engine) t d s p b (w : World E) d0 r w' :
  registry_inv w → registry w !! t = Some d0 →
  hook E t d s p b w = Some (r, w') →
  r = 0 ∧
  ∃ d' A B,
    registry w' !! t = Some d' ∧ hooks d0 = A ++ B ∧
    hooks d' = A ++ mkHookElement d s p (hookId d0 + 1) :: B ∧
    Forall (λ y, priority y ≤ p) A ∧ Forall (λ y, p < priority y) B ∧
    hookId d' = hookId d0 + 1 ∧ stub d' = stub d0 ∧ target d' = target d0.
Proof.
  intros Hinv Hreg Hhook.
  destruct (hook_inv E _ _ _ _ _ _ _ _ Hhook)
    as [(hd & hd1 & Hreg' & _ & Hu & -> & Hr & _)
       |[(Hreg' & _)|(hd1 & Hreg' & _)]]; [|congruence..].
  rewrite Hreg in Hreg'. injection Hreg' as <-. split; [done|].
  destruct (updateCallList_frame _ _ _ _ Hu) as [st ->].
  destruct (Hinv t d0 Hreg) as [[Hs Hb] _].
  destruct (set_insert_split (mkHookElement d s p (hookId d0 + 1)) (hooks d0) Hs)
    as (A & B & HAB & Hins & HA & HB).
  { eapply Forall_impl; [exact Hb|]. simpl. intros; lia. }
  eexists _, A, B. rewrite Hr, lookup_insert_eq. split; [reflexivity|].
  simpl. by rewrite Hins.
Qed.

(** X5: in a state reached from process start, [hook] on a target that
    already has a chain always returns 0, whatever the engine answers to
    the re-install, and adds exactly one entry: it carries the next id of
    the chain and stands behind every entry whose priority value is lower
    or equal (so behind the entries registered earlier with its own
    priority) and before every entry whose priority value is higher; the
    other entries keep their order. *)
Theorem hook_places_entry (E : Engine) ops h e (w : World E) t d s p b d0 r w' :
  run E ops (boot E h e) = Some w →
  registry w !! t = Some d0 → hook E t d s p b w = Some (r, w') →
  r = 0 ∧
  ∃ d' A B,
    registry w' !! t = Some d' ∧ hooks d0 = A ++ B ∧
    hooks d' = A ++ mkHookElement d s p (hookId d0 + 1) :: B ∧
    Forall (λ y, priority y ≤ p) A ∧ Forall (λ y, p < priority y) B ∧
    hookId d' = hookId d0 + 1 ∧
    length (hooks d') = S (length (hooks d0)).
Proof.
  intros Hrun Hreg Hhook.
  destruct (hook_existing_places E t d s p b w d0 r w'
              (reachable_inv E ops h e w Hrun) Hreg Hhook)
    as (-> & d' & A & B & Hreg' & HAB & Hd' & HA & HB & Hid & _).
  split; [done|]. exists d', A, B. repeat (split; [done|]).
  rewrite Hd', HAB, !length_app. simpl. lia.
Qed.

Lemma hook_places_entry_witness :
  ∃ w' d',
    hook grudging_engine T1 D2 S2 200 true grudging_world = Some (0, w') ∧
    registry w' !! T1 = Some d' ∧
    hooks d' = [mkHookElement D1 S1 200 1; mkHookElement D2 S2 200 2].
Proof.
  destruct (hook_places_entry grudging_engine first_ops heap0 0%nat grudging_world
              T1 D2 S2 200 true
              (mkHookData T1 (T1 + 8) D1 7000 1 [mkHookElement D1 S1 200 1])
              0 (default grudging_world
                   (snd <$> hook grudging_engine T1 D2 S2 200 true grudging_world)))
    as (_ & d' & A & B & Hreg & HAB & Hd' & HA & HB & _);
    [reflexivity|reflexivity|reflexivity|].
  eexists _, d'. split; [reflexivity|]. split; [exact Hreg|].
  rewrite Hd'. simpl in HAB.
  destruct A as [|a A].
  - simpl in HAB. subst B. apply Forall_cons in HB as [HB _]. simpl in HB. lia.
  - injection HAB as <- HAB. symmetry in HAB. apply app_eq_nil in HAB as [-> ->].
    reflexivity.
Defined.

(** ** What a chain keeps *)

Section Booked.

Context (E : Engine).

Lemma hook_keeps_booked t d s p b (w : World E) r w' :
  registry_inv w →
  (∀ t' d', registry w !! t' = Some d' → chain_booked t' d') →
  hook E t d s p b w = Some (r, w') →
  ∀ t' d', registry w' !! t' = Some d' → chain_booked t' d'.
Proof.
  intros Hinv Hbk Hhook t' d'.
  destruct (registry w !! t) as [d0|] eqn:Hreg.
  - destruct (hook_existing_places E t d s p b w d0 r w' Hinv Hreg Hhook)
      as (_ & d1 & A & B & Hreg1 & HAB & Hd1 & _ & _ & Hid & Hstub & Htgt).
    destruct (hook_inv E _ _ _ _ _ _ _ _ Hhook)
      as [(hd & hd1 & _ & _ & _ & _ & Hr & _)|[(Hn & _)|(hd1 & Hn & _)]];
      [|congruence..].
    destruct (decide (t = t')) as [<-|Hne].
    2:{ rewrite Hr, lookup_insert_ne by done. apply Hbk. }
    rewrite Hreg1. intros [= <-].
    destruct (Hbk t d0 Hreg) as (Ht & Hs & Hids & Hnd).
    assert (1 ≤ hookId d0) as Hpos.
    { destruct (Hinv t d0 Hreg) as [_ Hne0].
      destruct (hooks d0) as [|y ys]; [done|].
      apply Forall_cons in Hids as [Hy _]. lia. }
    split; [congruence|]. split; [congruence|]. rewrite Hd1, Hid.
    rewrite HAB in Hids, Hnd. apply Forall_app in Hids as [HidA HidB]. split.
    + apply Forall_app. split; [|constructor; [simpl; lia|]];
        (eapply Forall_impl; [eassumption|]); simpl; intros; lia.
    + rewrite fmap_app, fmap_cons. rewrite <- Permutation_middle.
      rewrite fmap_app in Hnd. apply NoDup_cons. split; [|done]. simpl.
      intros Hin. apply elem_of_app in Hin as [Hin|Hin];
        apply list_elem_of_fmap in Hin as (y & Hy & Hin).
      * pose proof (proj1 (Forall_forall _ _) HidA y Hin) as Hle. simpl in Hle. lia.
      * pose proof (proj1 (Forall_forall _ _) HidB y Hin) as Hle. simpl in Hle. lia.
  - destruct (hook_inv E _ _ _ _ _ _ _ _ Hhook)
      as [(hd & hd1 & Hs & _)|[(_ & _ & _ & Hr & _)|(hd1 & _ & Hstub & Hu & _ & Hr & _)]];
      [congruence| |].
    + rewrite Hr. apply Hbk.
    + destruct (decide (t = t')) as [<-|Hne].
      2:{ rewrite Hr, lookup_insert_ne by done. apply Hbk. }
      rewrite Hr, lookup_insert_eq. intros [= <-].
      destruct (updateCallList_frame _ _ _ _ Hu) as [st ->].
      split; [done|]. split; [done|]. simpl. split.
      * repeat constructor; simpl; lia.
      * apply NoDup_singleton.
Qed.

Lemma unhook_keeps_booked t d b (w : World E) r w' :
  (∀ t' d', registry w !! t' = Some d' → chain_booked t' d') →
  unhook E t d b w = Some (r, w') →
  ∀ t' d', registry w' !! t' = Some d' → chain_booked t' d'.
Proof.
  intros Hbk Hun t' d'.
  destruct (unhook_inv E _ _ _ _ _ _ Hun)
    as [[_ ->]|(hd & rest & hd1 & _ & _ & Hreg & Her & Hu & _ & Hc)]; [apply Hbk|].
  destruct (updateCallList_frame _ _ _ _ Hu) as [st ->].
  destruct (decide (t = t')) as [<-|Hne].
  2:{ destruct Hc as [(_ & -> & _)|(_ & -> & _)];
        [rewrite lookup_delete_ne by done|rewrite lookup_insert_ne by done];
        apply Hbk. }
  destruct Hc as [(_ & -> & _)|(_ & -> & _)]; [by rewrite lookup_delete_eq|].
  rewrite lookup_insert_eq. intros [= <-].
  destruct (Hbk t hd Hreg) as (Ht & Hs & Hids & Hnd).
  pose proof (erase_first_sublist _ _ _ Her) as Hsub.
  split; [done|]. split; [done|]. simpl. split.
  - by eapply sublist_Forall.
  - eapply sublist_NoDup; [exact Hnd|]. by apply fmap_sublist.
Qed.

Lemma run_keeps_booked ops (w w' : World E) :
  registry_inv w →
  (∀ t d, registry w !! t = Some d → chain_booked t d) →
  run E ops w = Some w' →
  ∀ t d, registry w' !! t = Some d → chain_booked t d.
Proof.
  revert w. induction ops as [|o ops IH]; intros w Hinv Hbk Hrun; simpl in Hrun.
  - by injection Hrun as <-.
  - destruct (exec E o w) as [w1|] eqn:Hex; [|done]. simpl in Hrun.
    apply (IH w1); [by eapply exec_preserves_inv| |done].
    destruct o as [t d s p b|t d b|]; simpl in Hex.
    + destruct (hook E t d s p b w) as [[r w2]|] eqn:Hhook; [|done].
      injection Hex as <-. by eapply hook_keeps_booked.
    + destruct (unhook E t d b w) as [[r w2]|] eqn:Hun; [|done].
      injection Hex as <-. by eapply unhook_keeps_booked.
    + injection Hex as <-. intros t d. by rewrite registry_unhookAll.
Qed.

(** X6: in every state reached from process start a chain is stored under
    its own target, holds a stub that is not null, and its entries carry
    pairwise distinct ids between 1 and the counter of the chain (an id is
    never handed out twice, also not after removals).  An install or remove
    on a target that has a chain before and after keeps the stub and the
    target of the chain (the stub the engine hands back for a re-install is
    dropped) and never lowers the counter. *)
Theorem chain_bookkeeping :
  (∀ ops h e (w : World E) t d,
     run E ops (boot E h e) = Some w → registry w !! t = Some d →
     chain_booked t d) ∧
  (∀ o (w w' : World E) t d0 d',
     op_target o = Some t → exec E o w = Some w' →
     registry w !! t = Some d0 → registry w' !! t = Some d' →
     stub d' = stub d0 ∧ target d' = target d0 ∧ hookId d0 ≤ hookId d').
Proof.
  split.
  - intros ops h e w t d Hrun.
    apply (run_keeps_booked ops (boot E h e) w); [apply boot_inv| |done].
    intros t' d'. simpl. by rewrite lookup_empty.
  - intros o w w' t d0 d' Ho Hex Hreg Hreg'.
    destruct o as [t0 d s p b|t0 d b|]; simpl in Ho; [| |done];
      injection Ho as ->; simpl in Hex.
    + destruct (hook E t d s p b w) as [[r w1]|] eqn:Hhook; [|done].
      injection Hex as <-.
      destruct (hook_inv E _ _ _ _ _ _ _ _ Hhook)
        as [(hd & hd1 & Hr0 & _ & Hu & _ & Hr & _)|[(Hn & _)|(hd1 & Hn & _)]];
        [|congruence..].
      destruct (updateCallList_frame _ _ _ _ Hu) as [st ->].
      rewrite Hr, lookup_insert_eq in Hreg'. injection Hreg' as <-.
      rewrite Hreg in Hr0. injection Hr0 as <-. simpl. repeat split; lia.
    + destruct (unhook E t d b w) as [[r w1]|] eqn:Hun; [|done].
      injection Hex as <-.
      destruct (unhook_inv E _ _ _ _ _ _ Hun)
        as [[_ ->]|(hd & rest & hd1 & _ & _ & Hr0 & Her & Hu & _ & Hc)].
      { rewrite Hreg in Hreg'. injection Hreg' as <-. repeat split; lia. }
      destruct (updateCallList_frame _ _ _ _ Hu) as [st ->].
      rewrite Hreg in Hr0. injection Hr0 as <-.
      destruct Hc as [(_ & Hr & _)|(_ & Hr & _)]; rewrite Hr in Hreg'.
      * by rewrite lookup_delete_eq in Hreg'.
      * rewrite lookup_insert_eq in Hreg'. injection Hreg' as <-.
        simpl. repeat split; lia.
Qed.

End Booked.

Lemma chain_bookkeeping_witness :
  chain_booked T1
    (mkHookData T1 (T1 + 8) D1 7000 2
       [mkHookElement D1 S2 100 2; mkHookElement D1 S1 200 1]) ∧
  ∃ d', registry twice_world !! T1 = Some d' ∧ stub d' = 7000.
Proof.
  destruct (chain_bookkeeping steady_engine) as [Hbooked Hkept].
  split.
  - apply (Hbooked twice_ops heap0 0%nat twice_world T1); reflexivity.
  - destruct (Hkept (OpHook T1 D1 S2 100 true) sample_world twice_world T1
                (mkHookData T1 (T1 + 8) D1 7000 1 [mkHookElement D1 S1 200 1])
                (mkHookData T1 (T1 + 8) D1 7000 2
                   [mkHookElement D1 S2 100 2; mkHookElement D1 S1 200 1]))
      as (Hstub & _); [reflexivity..|].
    eexists. split; [reflexivity|exact Hstub].
Defined.

(** ** Install, then remove *)

(** X7: on a target without chain (not null, the engine handing back a
    stub, the slot pointer not null), [hook] followed by [unhook] of the
    same detour returns 0 and then [true] and leaves the registry exactly
    as it was; the engine sees one install and one uninstall, the latter
    with the stub of the former; and the slot still holds the origin the
    engine reported, so that a detour still running reaches the hooked
    function. *)
Theorem hook_then_unhook (E : Engine) t d s p b b' (w : World E) :
  registry w !! t = None → t ≠ nullptr → s ≠ nullptr →
  install_stub E t d nullptr (engine (initOnce E w)) ≠ nullptr →
  ∃ w1 w2,
    hook E t d s p b w = Some (0, w1) ∧
    unhook E t d b' w1 = Some (true, w2) ∧
    registry w2 = registry w ∧
    calls w2
    = calls (initOnce E w)
      ++ [CallHook t d;
          CallUnhook (install_stub E t d nullptr (engine (initOnce E w)))] ∧
    cells (heap w2) !! s
    = Some (install_orig E t d nullptr (engine (initOnce E w))) ∧
    (∀ q, q ≠ s → cells (heap w2) !! q = cells (heap w) !! q).
Proof.
  intros Hreg Ht Hs Hstub.
  rewrite (hook_fresh E t d s p b w Hreg). cbv zeta.
  destruct (Z.eqb_spec (install_stub E t d nullptr (engine (initOnce E w))) nullptr);
    [done|].
  rewrite updateCallList_valid by (repeat constructor; done). simpl.
  eexists _, _. split; [reflexivity|].
  erewrite unhook_found; [|done|simpl; apply lookup_insert_eq|simpl; by rewrite Z.eqb_refl].
  rewrite updateCallList_empty by done. simpl.
  split; [reflexivity|]. simpl.
  split; [by apply delete_insert_id|].
  split; [by rewrite <- (assoc_L (++))|].
  unfold put; simpl. split; [apply lookup_insert_eq|].
  intros q Hq. by rewrite !lookup_insert_ne.
Qed.

Lemma hook_then_unhook_witness :
  ∃ w1 w2,
    hook steady_engine T2 D2 S2 100 true sample_world = Some (0, w1) ∧
    unhook steady_engine T2 D2 true w1 = Some (true, w2) ∧
    registry w2 = registry sample_world ∧
    calls w2 = calls sample_world ++ [CallHook T2 D2; CallUnhook 7001] ∧
    cells (heap w2) !! S2 = Some (T2 + 8).
Proof.
  destruct (hook_then_unhook steady_engine T2 D2 S2 100 true true sample_world)
    as (w1 & w2 & Hh & Hu & Hr & Hc & Hs & _); [reflexivity|done|done|done|].
  exists w1, w2. by repeat (split; [assumption|]).
Defined.

(** ** Which slots an operation stores to *)

Lemma store_other q v h h1 p :
  store q v h = Some h1 → q ≠ p → cells h1 !! p = cells h !! p.
Proof.
  unfold store. destruct (q =? nullptr); [done|]. intros [= <-] Hne.
  simpl. by apply lookup_insert_ne.
Qed.

Lemma store_not_null q v h h1 : store q v h = Some h1 → q ≠ nullptr.
Proof. unfold store. by destruct (Z.eqb_spec q nullptr). Qed.

Lemma updateCallList_loop_other O items last st h last' st' h' p :
  updateCallList_loop O items last st h = Some (last', st', h') →
  p ∉ originalFunc <$> items → last = nullptr ∨ last ≠ p →
  cells h' !! p = cells h !! p ∧ (last' = nullptr ∨ last' ≠ p).
Proof.
  revert last st h. induction items as [|x items IH]; intros last st h Hloop Hp Hlast.
  - simpl in Hloop. by injection Hloop as <- <- <-.
  - rewrite fmap_cons, not_elem_of_cons in Hp. destruct Hp as [Hx Hp].
    simpl in Hloop. destruct (Z.eqb_spec last nullptr) as [Hnull|Hnn].
    + destruct (store (originalFunc x) O h) as [h1|] eqn:Hst; [|done].
      simpl in Hloop. destruct (IH _ _ _ Hloop Hp) as [Hc Hl]; [right; congruence|].
      split; [|done]. rewrite Hc. eapply store_other; [done|congruence].
    + destruct (store last (detour x) h) as [h1|] eqn:Hst; [|done].
      simpl in Hloop. destruct (IH _ _ _ Hloop Hp) as [Hc Hl]; [right; congruence|].
      split; [|done]. rewrite Hc. eapply store_other; [done|].
      by destruct Hlast.
Qed.

Lemma updateCallList_other d h d' h' p :
  updateCallList d h = Some (d', h') → p ∉ originalFunc <$> hooks d →
  cells h' !! p = cells h !! p.
Proof.
  unfold updateCallList. intros Hu Hp.
  destruct (updateCallList_loop _ _ _ _ _) as [[[last st] h1]|] eqn:Hloop; [|done].
  simpl in Hu.
  destruct (updateCallList_loop_other _ _ _ _ _ _ _ _ p Hloop Hp) as [Hc Hl];
    [by left|].
  destruct (Z.eqb_spec last nullptr) as [Hnull|Hnn].
  - by injection Hu as <- <-.
  - destruct (store last (origin d) h1) as [h2|] eqn:Hst; [|done].
    injection Hu as <- <-. rewrite <- Hc. eapply store_other; [done|].
    by destruct Hl.
Qed.

(** X8: an operation stores only to slots of the entries of the chain it
    leaves for its target: every other address keeps its content.  So a
    failed [hook], an [unhook] that finds nothing or removes the last
    entry, and [unhookAll] store nothing at all, and [unhook] does not
    store to the slot of the entry it removes (unless an entry that stays
    names the same slot): that slot keeps forwarding to where it did. *)
Theorem operations_store_to_chain_slots (E : Engine) o (w w' : World E) p :
  exec E o w = Some w' → p ∉ slots_after o w' →
  cells (heap w') !! p = cells (heap w) !! p.
Proof.
  intros Hex Hp. unfold slots_after in Hp.
  destruct o as [t d s pr b|t d b|]; simpl in Hex, Hp.
  - destruct (hook E t d s pr b w) as [[r w1]|] eqn:Hhook; [|done].
    injection Hex as <-.
    destruct (hook_inv E _ _ _ _ _ _ _ _ Hhook)
      as [(hd & hd1 & _ & _ & Hu & _ & Hr & _)
         |[(_ & _ & _ & _ & Hh & _)|(hd1 & _ & _ & Hu & _ & Hr & _)]].
    + rewrite Hr, lookup_insert_eq in Hp.
      destruct (updateCallList_frame _ _ _ _ Hu) as [st ->].
      by eapply updateCallList_other.
    + by rewrite Hh.
    + rewrite Hr, lookup_insert_eq in Hp.
      destruct (updateCallList_frame _ _ _ _ Hu) as [st ->].
      by eapply updateCallList_other.
  - destruct (unhook E t d b w) as [[r w1]|] eqn:Hun; [|done].
    injection Hex as <-.
    destruct (unhook_inv E _ _ _ _ _ _ Hun)
      as [[_ ->]|(hd & rest & hd1 & _ & _ & _ & _ & Hu & _ & Hc)]; [done|].
    destruct (updateCallList_frame _ _ _ _ Hu) as [st ->].
    eapply updateCallList_other; [exact Hu|]. simpl.
    destruct Hc as [(-> & _)|(_ & Hr & _)]; [apply not_elem_of_nil|].
    by rewrite Hr, lookup_insert_eq in Hp.
  - injection Hex as <-. by rewrite heap_unhookAll.
Qed.

Lemma operations_store_to_chain_slots_witness :
  ∃ w', exec steady_engine (OpUnhook T1 D1 true) twice_world = Some w' ∧
        cells (heap w') !! S2 = Some D1.
Proof.
  eexists. split; [reflexivity|].
  rewrite (operations_store_to_chain_slots steady_engine (OpUnhook T1 D1 true)
             twice_world _ S2 eq_refl).
  - reflexivity.
  - vm_compute. intros Hin. apply list_elem_of_singleton in Hin. discriminate Hin.
Defined.

(** ** Recomputing twice, and null slot pointers *)

Lemma foldl_put_twice c ws : foldl put (foldl put c ws) ws = foldl put c ws.
Proof.
  apply map_eq. intros p.
  destruct (decide (p ∈ ws.*1)) as [Hin|Hnin].
  - by apply foldl_put_agree.
  - by rewrite foldl_put_other.
Qed.

(** X9: recomputing is idempotent.  When no slot pointer of the chain is
    null, a second [updateCallList] right after the first returns the same
    chain and leaves every heap cell as the first left it, also when
    entries share a slot. *)
Theorem recompute_twice (d : HookData) (h : Heap) :
  slots_valid (hooks d) →
  ∃ d1 h1 h2,
    updateCallList d h = Some (d1, h1) ∧
    updateCallList d1 h1 = Some (d1, h2) ∧
    cells h2 = cells h1.
Proof.
  intros Hv. rewrite (updateCallList_valid d h Hv).
  eexists _, _, _. split; [reflexivity|].
  rewrite updateCallList_valid by done. simpl.
  split; [reflexivity|]. simpl. apply foldl_put_twice.
Qed.

Lemma recompute_twice_witness :
  ∃ d1 h1 h2,
    updateCallList sample_chain heap0 = Some (d1, h1) ∧
    updateCallList d1 h1 = Some (d1, h2) ∧ cells h2 = cells h1.
Proof.
  apply (recompute_twice sample_chain heap0). repeat constructor; done.
Defined.

Lemma updateCallList_loop_app O l1 l2 last st h :
  updateCallList_loop O (l1 ++ l2) last st h
  = r ← updateCallList_loop O l1 last st h;
    updateCallList_loop O l2 r.1.1 r.1.2 r.2.
Proof.
  revert last st h. induction l1 as [|x l1 IH]; intros last st h; simpl; [done|].
  destruct (last =? nullptr).
  - destruct (store _ _ _) as [h1|]; simpl; [apply IH|done].
  - destruct (store _ _ _) as [h1|]; simpl; [apply IH|done].
Qed.

Lemma updateCallList_loop_fresh O x l st h :
  slots_valid (x :: l) →
  updateCallList_loop O (x :: l) nullptr st h
  = Some (last_slot (originalFunc x) l, detour x,
          write_all ((originalFunc x, O) :: links (originalFunc x) l) h).
Proof.
  intros Hv. apply Forall_cons in Hv as [Hx Hl]. simpl.
  rewrite store_valid by done. simpl.
  rewrite updateCallList_loop_valid by done. by rewrite write_all_app.
Qed.

(** X10: a null slot pointer changes what [updateCallList] does, because
    the loop takes a null [last] for "first iteration".  When the first
    entry has a null slot pointer the recomputation stores through null
    (no result).  When an entry [x] behind at least one entry has one, and
    no other entry has, the recomputation completes and [start] becomes
    the detour of the entry after [x], or the origin if [x] is last: the
    entries up to [x] are no longer reached from [start]. *)
Theorem null_slot_cuts_chain (d : HookData) (h : Heap) :
  (∀ x rest, hooks d = x :: rest → originalFunc x = nullptr →
             updateCallList d h = None) ∧
  (∀ l1 x l2,
     hooks d = l1 ++ x :: l2 → l1 ≠ [] → originalFunc x = nullptr →
     slots_valid l1 → slots_valid l2 →
     ∃ h', updateCallList d h
           = Some (set_start (next_of (origin d) l2) d, h')).
Proof.
  split.
  - intros x rest Hh Hx. unfold updateCallList. rewrite Hh. simpl.
    by rewrite Hx.
  - intros l1 x l2 Hh Hne Hx Hv1 Hv2. unfold updateCallList. rewrite Hh.
    destruct l1 as [|y l1]; [done|].
    rewrite updateCallList_loop_app, updateCallList_loop_fresh by done.
    cbn [mbind option_bind fst snd updateCallList_loop].
    pose proof Hv1 as Hv1'. apply Forall_cons in Hv1' as [Hy Hl1].
    pose proof (last_slot_valid _ _ Hy Hl1) as Hlast.
    destruct (Z.eqb_spec (last_slot (originalFunc y) l1) nullptr); [done|].
    rewrite store_valid by done. cbn [mbind option_bind]. rewrite Hx.
    destruct l2 as [|z l2].
    + simpl. by eexists.
    + rewrite updateCallList_loop_fresh by done.
      cbn [mbind option_bind fst snd].
      pose proof Hv2 as Hv2'. apply Forall_cons in Hv2' as [Hz Hl2].
      pose proof (last_slot_valid _ _ Hz Hl2) as Hlast2.
      destruct (Z.eqb_spec (last_slot (originalFunc z) l2) nullptr); [done|].
      rewrite store_valid by done. simpl. by eexists.
Qed.

Lemma null_slot_cuts_chain_witness :
  ∃ h', updateCallList cut_chain heap0 = Some (set_start D3 cut_chain, h').
Proof.
  apply (proj2 (null_slot_cuts_chain cut_chain heap0)
           [mkHookElement D1 S1 100 1] (mkHookElement D2 nullptr 200 2)
           [mkHookElement D3 S3 300 3]); try done; repeat constructor; done.
Defined.

(** ** The resolver, beyond the failed scan *)

Section ResolverMore.

Context (sscanf_base : string → option Z)
        (sscanf_range : string → option (Z * Z))
        (resolveSignature : Z → Z → string → Z).

Lemma resolveIdentifier_ready maps identifier s :
  Resolver.resolveIdentifier sscanf_base sscanf_range resolveSignature
    maps identifier s
  = (cached_answer resolveSignature
       (Resolver.base (ready sscanf_base sscanf_range maps s))
       (Resolver.size (ready sscanf_base sscanf_range maps s)) identifier,
     ready sscanf_base sscanf_range maps s).
Proof.
  unfold Resolver.resolveIdentifier, ready, cached_answer.
  destruct (Resolver.initialized s); simpl;
    (destruct (_ || _); [done|]);
    match goal with
    | |- context [?r =? 0] => destruct (Z.eqb_spec r 0) as [Hr|]
    end; by rewrite ?Hr.
Qed.

Lemma ready_initialized maps s :
  Resolver.initialized (ready sscanf_base sscanf_range maps s) = true.
Proof. unfold ready. by destruct (Resolver.initialized s) eqn:Hi. Qed.

Lemma ready_ready maps maps' s :
  ready sscanf_base sscanf_range maps' (ready sscanf_base sscanf_range maps s)
  = ready sscanf_base sscanf_range maps s.
Proof. unfold ready at 1. by rewrite ready_initialized. Qed.

Lemma resolve_calls_ready later s maps0 :
  Resolver.resolve_calls sscanf_base sscanf_range resolveSignature later
    (ready sscanf_base sscanf_range maps0 s)
  = ((λ mi, cached_answer resolveSignature
              (Resolver.base (ready sscanf_base sscanf_range maps0 s))
              (Resolver.size (ready sscanf_base sscanf_range maps0 s)) mi.2)
       <$> later,
     ready sscanf_base sscanf_range maps0 s).
Proof.
  induction later as [|[maps identifier] later IH]; [done|].
  simpl. rewrite resolveIdentifier_ready, ready_ready. by rewrite IH.
Qed.

(** X11: the module bounds are read from the memory map once, by the first
    call of [resolveIdentifier], and every call, the first and all later
    ones, answers from these bounds, whatever the memory map is at the time
    of the call: the answer is what [resolveSignature] returns for the
    cached base and size, or null when one of them is zero.  From the
    initial statics exactly two scans are ever made. *)
Theorem resolver_answers_from_first_scan maps0 identifier0 later s :
  let s1 := ready sscanf_base sscanf_range maps0 s in
  Resolver.resolve_calls sscanf_base sscanf_range resolveSignature
    ((maps0, identifier0) :: later) s
  = ((λ mi, cached_answer resolveSignature (Resolver.base s1) (Resolver.size s1) mi.2)
       <$> (maps0, identifier0) :: later, s1) ∧
  (Resolver.initialized s = false →
   Resolver.base s1 = Resolver.getLibBase sscanf_base maps0 "libminecraftpe.so" ∧
   Resolver.size s1 = Resolver.getLibSize sscanf_range maps0 "libminecraftpe.so" ∧
   length (Resolver.scanned s1) = (length (Resolver.scanned s) + 2)%nat) ∧
  (Resolver.initialized s = true → s1 = s).
Proof.
  intros s1. split; [|split].
  - simpl. rewrite resolveIdentifier_ready, resolve_calls_ready. done.
  - intros Hi. unfold s1, ready. rewrite Hi. simpl.
    rewrite length_app. simpl. done.
  - intros Hi. unfold s1, ready. by rewrite Hi.
Qed.

Lemma resolveIdentifiers_ready maps ids s :
  ids ≠ [] →
  Resolver.resolveIdentifiers sscanf_base sscanf_range resolveSignature maps ids s
  = (first_nonnull
       (cached_answer resolveSignature
          (Resolver.base (ready sscanf_base sscanf_range maps s))
          (Resolver.size (ready sscanf_base sscanf_range maps s)) <$> ids),
     ready sscanf_base sscanf_range maps s).
Proof.
  revert s. induction ids as [|i ids IH]; intros s Hne; [done|].
  simpl. rewrite resolveIdentifier_ready.
  destruct (Z.eqb_spec (cached_answer resolveSignature
                          (Resolver.base (ready sscanf_base sscanf_range maps s))
                          (Resolver.size (ready sscanf_base sscanf_range maps s)) i)
              nullptr) as [Hz|Hnz]; [|done].
  destruct ids as [|j ids]; [done|].
  rewrite IH by done. by rewrite ready_ready.
Qed.

Lemma first_nonnull_app l1 a l2 :
  Forall (λ x, x = nullptr) l1 → a ≠ nullptr →
  first_nonnull (l1 ++ a :: l2) = a.
Proof.
  intros Hl1 Ha. induction Hl1 as [|x l1 -> _ IH]; simpl.
  - by destruct (Z.eqb_spec a nullptr).
  - exact IH.
Qed.

Lemma first_nonnull_none l : Forall (λ x, x = nullptr) l → first_nonnull l = nullptr.
Proof. induction 1 as [|x l -> _ IH]; [done|]. exact IH. Qed.

(** X12: [resolveIdentifier] over a list of identifiers returns the answer
    of the first identifier, in list order, whose answer is not null, and
    the identifiers behind it do not matter; it returns null when every
    answer is null.  All answers come from the same module bounds.  Over an
    empty list it returns null without scanning the memory map, also when
    nothing was scanned before. *)
Theorem resolveIdentifiers_first_match maps (s : Resolver.Statics) :
  let s1 := ready sscanf_base sscanf_range maps s in
  let answer := cached_answer resolveSignature (Resolver.base s1) (Resolver.size s1) in
  Resolver.resolveIdentifiers sscanf_base sscanf_range resolveSignature maps [] s
  = (nullptr, s) ∧
  (∀ l1 i l2,
     Forall (λ j, answer j = nullptr) l1 → answer i ≠ nullptr →
     Resolver.resolveIdentifiers sscanf_base sscanf_range resolveSignature
       maps (l1 ++ i :: l2) s = (answer i, s1)) ∧
  (∀ ids,
     ids ≠ [] → Forall (λ j, answer j = nullptr) ids →
     Resolver.resolveIdentifiers sscanf_base sscanf_range resolveSignature
       maps ids s = (nullptr, s1)).
Proof.
  intros s1 answer. split; [done|]. split.
  - intros l1 i l2 Hl1 Hi.
    rewrite resolveIdentifiers_ready by (by destruct l1).
    fold s1 answer. f_equal.
    rewrite fmap_app, fmap_cons. apply first_nonnull_app; [|done].
    by apply Forall_fmap.
  - intros ids Hne Hall. rewrite resolveIdentifiers_ready by done.
    fold s1 answer. f_equal. apply first_nonnull_none. by apply Forall_fmap.
Qed.

End ResolverMore.

Lemma resolver_answers_from_first_scan_witness :
  Resolver.resolve_calls sample_sscanf_base sample_sscanf_range
    sample_resolveSignature
    [(maps_with, "48 89 5C 24 ?"); (maps_without, "40 53 48 83 EC"); (None, "E8 ? ?")]
    Resolver.statics0
  = ([2046820368; 2046820368; 2046820368],
     Resolver.mkStatics true 2046820352 9437184
       ["libminecraftpe.so"; "libminecraftpe.so"]).
Proof.
  destruct (resolver_answers_from_first_scan sample_sscanf_base sample_sscanf_range
              sample_resolveSignature maps_with "48 89 5C 24 ?"
              [(maps_without, "40 53 48 83 EC"); (None, "E8 ? ?")]
              Resolver.statics0) as (Hcalls & Hfirst & _).
  destruct (Hfirst eq_refl) as (Hb & Hs & _).
  rewrite Hcalls. reflexivity.
Defined.

Lemma resolveIdentifiers_first_match_witness :
  Resolver.resolveIdentifiers sample_sscanf_base sample_sscanf_range
    (λ B S i, if String.eqb i "40 53 48 83 EC" then B + 64 else 0)
    maps_with ["48 89 5C 24 ?"; "40 53 48 83 EC"; "E8 ? ?"] Resolver.statics0
  = (2046820416,
     Resolver.mkStatics true 2046820352 9437184
       ["libminecraftpe.so"; "libminecraftpe.so"]).
Proof.
  destruct (resolveIdentifiers_first_match sample_sscanf_base sample_sscanf_range
              (λ B S i, if String.eqb i "40 53 48 83 EC" then B + 64 else 0)
              maps_with Resolver.statics0) as (_ & Hfirst & _).
  refine (eq_trans (Hfirst ["48 89 5C 24 ?"] "40 53 48 83 EC" ["E8 ? ?"] _ _) _).
  - repeat constructor.
  - by vm_compute.
  - reflexivity.
Defined.

(** ** Module bounds from the memory map *)

Section Bounds.

Context (sscanf_base : string → option Z)
        (sscanf_range : string → option (Z * Z)).

Lemma UINTPTR_MOD_pos : 0 < Resolver.UINTPTR_MOD.
Proof. by vm_compute. Qed.

Lemma getLibSize_loop_total libName lines acc :
  0 ≤ acc < Resolver.UINTPTR_MOD →
  Resolver.getLibSize_loop sscanf_range lines libName acc
  = (acc + segments_total sscanf_range libName lines) `mod` Resolver.UINTPTR_MOD.
Proof.
  pose proof UINTPTR_MOD_pos as HM.
  revert acc. induction lines as [|line lines IH]; intros acc Hacc; simpl.
  - rewrite Z.add_0_r. symmetry. by apply Z.mod_small.
  - unfold segment_length. destruct (Resolver.strstr line libName).
    + destruct (sscanf_range line) as [[st en]|].
      * rewrite IH by (apply Z.mod_pos_bound; lia).
        rewrite Zplus_mod_idemp_l. f_equal. lia.
      * rewrite IH by done. f_equal.
    + rewrite IH by done. f_equal.
Qed.

Lemma segments_total_app libName l1 l2 :
  segments_total sscanf_range libName (l1 ++ l2)
  = segments_total sscanf_range libName l1 + segments_total sscanf_range libName l2.
Proof. induction l1 as [|x l1 IH]; simpl; [done|]. rewrite IH. lia. Qed.

Lemma segments_total_filter libName lines :
  segments_total sscanf_range libName
    (filter (λ line, Resolver.strstr line libName = true) lines)
  = segments_total sscanf_range libName lines.
Proof.
  induction lines as [|x lines IH]; [done|].
  destruct (Resolver.strstr x libName) eqn:Hx.
  - rewrite filter_cons_True by done. simpl. by rewrite IH.
  - rewrite filter_cons_False by congruence. simpl. rewrite IH.
    unfold segment_length. by rewrite Hx.
Qed.

Lemma segments_total_nonneg libName lines :
  0 ≤ segments_total sscanf_range libName lines.
Proof.
  pose proof UINTPTR_MOD_pos as HM.
  induction lines as [|x lines IH]; simpl; [done|].
  assert (0 ≤ segment_length sscanf_range libName x); [|lia].
  unfold segment_length. destruct (Resolver.strstr x libName); [|done].
  destruct (sscanf_range x) as [[st en]|]; [|done].
  apply Z.mod_pos_bound. lia.
Qed.

(** X13: [getLibSize] is 0 when the memory map cannot be opened, and
    otherwise the sum, modulo 2^64, of [end - start] over all the lines
    that contain the library name and parse as a range; the other lines do
    not matter, in whatever position.  The result lies in [0, 2^64), is
    additive (modulo 2^64) over a memory map cut in two, and is the plain
    sum when that sum is below 2^64. *)
Theorem getLibSize_sums_segments (libName : string) :
  Resolver.getLibSize sscanf_range None libName = 0 ∧
  (∀ lines,
     Resolver.getLibSize sscanf_range (Some lines) libName
     = segments_total sscanf_range libName lines `mod` Resolver.UINTPTR_MOD) ∧
  (∀ maps, 0 ≤ Resolver.getLibSize sscanf_range maps libName < Resolver.UINTPTR_MOD) ∧
  (∀ l1 l2,
     Resolver.getLibSize sscanf_range (Some (l1 ++ l2)) libName
     = (Resolver.getLibSize sscanf_range (Some l1) libName
        + Resolver.getLibSize sscanf_range (Some l2) libName)
       `mod` Resolver.UINTPTR_MOD) ∧
  (∀ lines,
     Resolver.getLibSize sscanf_range
       (Some (filter (λ line, Resolver.strstr line libName = true) lines)) libName
     = Resolver.getLibSize sscanf_range (Some lines) libName) ∧
  (∀ lines,
     segments_total sscanf_range libName lines < Resolver.UINTPTR_MOD →
     Resolver.getLibSize sscanf_range (Some lines) libName
     = segments_total sscanf_range libName lines).
Proof.
  pose proof UINTPTR_MOD_pos as HM.
  assert (∀ lines,
     Resolver.getLibSize sscanf_range (Some lines) libName
     = segments_total sscanf_range libName lines `mod` Resolver.UINTPTR_MOD) as Hsum.
  { intros lines. unfold Resolver.getLibSize.
    by rewrite getLibSize_loop_total by lia. }
  split; [done|]. split; [exact Hsum|]. split; [|split; [|split]].
  - intros [lines|]; [|simpl; lia]. rewrite Hsum. apply Z.mod_pos_bound. lia.
  - intros l1 l2. rewrite !Hsum, segments_total_app.
    by rewrite <- Zplus_mod.
  - intros lines. by rewrite !Hsum, segments_total_filter.
  - intros lines Hlt. rewrite Hsum. apply Z.mod_small.
    split; [apply segments_total_nonneg|done].
Qed.

Lemma getLibBase_loop_skip libName l1 l2 :
  Forall (no_base sscanf_base libName) l1 →
  Resolver.getLibBase_loop sscanf_base (l1 ++ l2) libName
  = Resolver.getLibBase_loop sscanf_base l2 libName.
Proof.
  induction 1 as [|x l1 Hx _ IH]; [done|]. simpl.
  destruct Hx as [-> | Hx]; [done|]. rewrite Hx.
  by destruct (Resolver.strstr x libName).
Qed.

(** X14: [getLibBase] returns the start address, modulo 2^64, parsed from
    the first line of the memory map that contains the library name and
    parses; the lines before it that lack the name or do not parse are
    passed over, and the lines behind it are not looked at.  It returns 0
    when the memory map cannot be opened and when no line qualifies, so a
    result of 0 does not tell these apart (nor from a parsed address
    0). *)
Theorem getLibBase_first_mapping (libName : string) :
  Resolver.getLibBase sscanf_base None libName = 0 ∧
  (∀ l1 line l2 temp,
     Forall (no_base sscanf_base libName) l1 →
     Resolver.strstr line libName = true → sscanf_base line = Some temp →
     Resolver.getLibBase sscanf_base (Some (l1 ++ line :: l2)) libName
     = temp `mod` Resolver.UINTPTR_MOD) ∧
  (∀ lines,
     Forall (no_base sscanf_base libName) lines →
     Resolver.getLibBase sscanf_base (Some lines) libName = 0) ∧
  (∀ maps, 0 ≤ Resolver.getLibBase sscanf_base maps libName < Resolver.UINTPTR_MOD).
Proof.
  pose proof UINTPTR_MOD_pos as HM.
  split; [done|]. split; [|split].
  - intros l1 line l2 temp Hl1 Hname Hparse. simpl.
    rewrite getLibBase_loop_skip by done. simpl. by rewrite Hname, Hparse.
  - intros lines Hall. simpl.
    rewrite <- (app_nil_r lines). by rewrite getLibBase_loop_skip.
  - intros [lines|]; [|simpl; lia]. simpl.
    induction lines as [|x lines IH]; simpl; [lia|].
    destruct (Resolver.strstr x libName); [|done].
    destruct (sscanf_base x); [|done]. apply Z.mod_pos_bound. lia.
Qed.

End Bounds.

Lemma getLibSize_sums_segments_witness :
  Resolver.getLibSize sample_sscanf_range maps_with "libminecraftpe.so"
  = 8388608 + 1048576.
Proof.
  destruct (getLibSize_sums_segments sample_sscanf_range "libminecraftpe.so")
    as (_ & _ & _ & _ & _ & Hplain).
  unfold maps_with. rewrite Hplain; [reflexivity|by vm_compute].
Defined.

Lemma getLibBase_first_mapping_witness :
  Resolver.getLibBase sample_sscanf_base maps_with "libminecraftpe.so" = 2046820352.
Proof.
  destruct (getLibBase_first_mapping sample_sscanf_base "libminecraftpe.so")
    as (_ & Hfirst & _).
  refine (eq_trans
            (Hfirst ["12c00000-12c40000 rw-p 00000000 00:00 0 [anon:dalvik-main space]"]
               "7a000000-7a800000 r-xp 00000000 fd:00 77 /data/app/lib/arm64/libminecraftpe.so"
               ["7a800000-7a900000 rw-p 00800000 fd:00 77 /data/app/lib/arm64/libminecraftpe.so"]
               2046820352 _ _ _) _).
  - constructor; [by left|constructor].
  - reflexivity.
  - reflexivity.
  - reflexivity.
Defined.
